(** * Solana Risk Checker backend: a shallow embedding of [app/main.py]

    The service has three handlers ([health], [score], [simulate]), one
    module-level dictionary ([CACHE]) and two helpers ([get_transactions]
    and [extract_features_from_helius]).  The embedding follows the Python
    text statement by statement:

    - the request body is a Python [dict] decoded from JSON, so its values
      are arbitrary JSON values ([json]); truthiness, hashability and [==]
      are the Python ones;
    - the module-level [CACHE] is threaded explicitly through a [world]
      record that also logs every upstream GET that is issued;
    - everything the handlers read from outside (the clock, the reply of
      the history API, the base64 decoder, the simulation RPC) is supplied
      by an environment record, so the handlers are total functions;
    - a Python exception is the [Raise] constructor of [result];
    - clock readings, the ratio and the recency are kept as exact
      rationals ([Q]); [score] computes the risk score over them, and
      [score_f64] computes it in binary64 as lines 146 to 151 do. *)

From Stdlib Require Import ZArith QArith Qround Qabs Qminmax Lqa Lia.
From Stdlib Require Import String List Bool Floats.
From stdpp Require Import base option countable gmap strings.

Local Open Scope string_scope.

(** ** Python values *)

(** JSON values as produced by [json.loads]: numbers are kept as exact
    rationals, objects as their list of items. *)
#[warnings="-register-all"]
Inductive json : Type :=
| JNull
| JBool (b : bool)
| JNum (q : Q)
| JStr (s : string)
| JArr (items : list json)
| JObj (members : list (string * json)).

Definition Qltb (x y : Q) : bool := negb (Qle_bool y x).

(** [bool(v)]: [None], [False], zero, the empty string and the empty
    containers are falsy. *)
Definition truthy (v : json) : bool :=
  match v with
  | JNull => false
  | JBool b => b
  | JNum q => negb (Qeq_bool q 0)
  | JStr s => negb (String.eqb s "")
  | JArr items => match items with [] => false | _ => true end
  | JObj members => match members with [] => false | _ => true end
  end.

(** [not body.get(k)]: an absent key yields [None], which is falsy. *)
Definition falsy_opt (v : option json) : bool :=
  match v with
  | None => true
  | Some v => negb (truthy v)
  end.

(** Dictionary keys.  Python identifies [True], [1] and [1.0] as keys, so
    numbers are stored by their reduced fraction. *)
Inductive pykey : Type :=
| KNone
| KNum (n : Z) (d : positive)
| KStr (s : string).

#[global] Instance pykey_eq_dec : EqDecision pykey.
Proof. solve_decision. Defined.

Definition pykey_enc (k : pykey) : unit + (Z * positive) + string :=
  match k with
  | KNone => inl (inl tt)
  | KNum n d => inl (inr (n, d))
  | KStr s => inr s
  end.

Definition pykey_dec (x : unit + (Z * positive) + string) : pykey :=
  match x with
  | inl (inl _) => KNone
  | inl (inr (n, d)) => KNum n d
  | inr s => KStr s
  end.

#[global] Instance pykey_countable : Countable pykey.
Proof.
  apply (inj_countable' pykey_enc pykey_dec).
  by intros [].
Defined.

(** [hash(v)]: lists and dicts are unhashable ([None] stands for the
    [TypeError]). *)
Definition hashable (v : json) : option pykey :=
  match v with
  | JNull => Some KNone
  | JBool b => Some (KNum (if b then 1 else 0) 1)
  | JNum q => Some (KNum (Qnum (Qred q)) (Qden (Qred q)))
  | JStr s => Some (KStr s)
  | JArr _ => None
  | JObj _ => None
  end.

(** Exceptions carry their class name and [str(e)]. *)
Record exn : Type := Exn { exn_class : string; exn_str : string }.

Definition unhashable (v : json) : exn :=
  match v with
  | JObj _ => Exn "TypeError" "unhashable type: 'dict'"
  | _ => Exn "TypeError" "unhashable type: 'list'"
  end.

Inductive result (A : Type) : Type :=
| Return (a : A)
| Raise (e : exn).
Arguments Return {A} a.
Arguments Raise {A} e.

(** ** Data model *)

(** A native-transfer entry of the history API; [None] is an absent or
    null field (what [t.get(...)] returns for it). The amount is never
    read. *)
Record NativeTransfer : Type := {
  fromUserAccount : option string;
  toUserAccount : option string
}.

(** A transaction record of the history API. [nativeTransfers = None] is
    an absent key; [timestamp = None] is an absent or null timestamp. *)
Record TransactionRecord : Type := {
  nativeTransfers : option (list NativeTransfer);
  timestamp : option Z
}.

(** The dictionary returned by [extract_features_from_helius]. *)
Record FeatureSet : Type := {
  tx_count : nat;
  incoming_tx_count : nat;
  outgoing_tx_count : nat;
  incoming_ratio : Q;
  recent_activity_days : option Q
}.

(** A value of [CACHE]: [{"timestamp": ..., "data": ...}]. *)
Record CacheEntry : Type := {
  entry_timestamp : Q;
  entry_data : list TransactionRecord
}.

(** The mutable state of the process: the cache, and the addresses for
    which an upstream GET has been issued (most recent first). *)
Record world : Type := {
  CACHE : gmap pykey CacheEntry;
  upstream_calls : list json
}.

(** What [client.get] produces: a transport failure, or a reply with its
    status code and its body. The body is [None] when [response.json()]
    raises; a body that parses is taken to be what the history API
    documents, an array of transaction records. *)
Inductive upstream_reply : Type :=
| TransportError (e : exn)
| Reply (status : nat) (body : option (list TransactionRecord)).

(** What one run of [get_transactions] reads from outside. *)
Record fetch_env : Type := {
  now_check : Q;
  reply : upstream_reply;
  now_store : Q
}.

(** What one run of [score] reads from outside. *)
Record score_env : Type := {
  fetch : fetch_env;
  now_extract : Q
}.

(** [resp.value] of the simulation RPC. *)
Record SimulationValue : Type := {
  logs : list string;
  units_consumed : option Z;
  err : option json
}.

(** What one run of [simulate] reads from outside: the outcome of
    [base64.b64decode] on the submitted value and of the RPC call on the
    decoded bytes. *)
Record simulate_env : Type := {
  b64decode : json -> result (list Byte.byte);
  simulate_transaction : list Byte.byte -> result (option SimulationValue)
}.

(** The dictionaries returned by the handlers. *)
Inductive response_body : Type :=
| OkBody
| ErrorBody (error : string)
| ScoreBody (score : Q) (label : string) (features : FeatureSet)
| SimulateBody (logs : list string) (units_consumed : option Z)
    (err : option json).

(** ** Health check *)

Definition health : response_body := OkBody.

(** ** Feature extraction *)

(** [t.get(field) == address] for a field that is a string or [None]. *)
Definition py_eq_account (v : option string) (address : json) : bool :=
  match v, address with
  | Some s, JStr a => String.eqb s a
  | None, JNull => true
  | _, _ => false
  end.

(** The loop variables of [extract_features_from_helius]. *)
Record counters : Type := {
  incoming : nat;
  outgoing : nat;
  last_tx_timestamp : option Z
}.

(** Body of the inner loop. *)
Definition transfer_step (address : json) (st : counters)
    (t : NativeTransfer) : counters :=
  if py_eq_account (toUserAccount t) address then
    {| incoming := S (incoming st); outgoing := outgoing st;
       last_tx_timestamp := last_tx_timestamp st |}
  else if py_eq_account (fromUserAccount t) address then
    {| incoming := incoming st; outgoing := S (outgoing st);
       last_tx_timestamp := last_tx_timestamp st |}
  else st.

(** [ts and (last_tx_timestamp is None or ts > last_tx_timestamp)] *)
Definition newer (ts : option Z) (last : option Z) : bool :=
  match ts with
  | None => false
  | Some ts =>
      negb (ts =? 0)%Z &&
      match last with
      | None => true
      | Some l => (l <? ts)%Z
      end
  end.

(** Body of the outer loop. *)
Definition tx_step (address : json) (st : counters)
    (tx : TransactionRecord) : counters :=
  let st' :=
    fold_left (transfer_step address) (default [] (nativeTransfers tx)) st in
  if newer (timestamp tx) (last_tx_timestamp st') then
    {| incoming := incoming st'; outgoing := outgoing st';
       last_tx_timestamp := timestamp tx |}
  else st'.

Definition counters0 : counters :=
  {| incoming := 0; outgoing := 0; last_tx_timestamp := None |}.

(** [now] is the value of [time.time()] read on line 109. *)
Definition extract_features_from_helius (now : Q)
    (data : list TransactionRecord) (address : json) : FeatureSet :=
  let tx_count := length data in
  let st := fold_left (tx_step address) data counters0 in
  let incoming_ratio :=
    if (0 <? tx_count)%nat
    then (inject_Z (Z.of_nat (incoming st)) / inject_Z (Z.of_nat tx_count))%Q
    else 0%Q in
  let recent_days :=
    match last_tx_timestamp st with
    | Some l =>
        if (l =? 0)%Z then None
        else Some ((now - inject_Z l) / inject_Z 86400)%Q
    | None => None
    end in
  {| tx_count := tx_count;
     incoming_tx_count := incoming st;
     outgoing_tx_count := outgoing st;
     incoming_ratio := incoming_ratio;
     recent_activity_days := recent_days |}.

(** ** Risk score *)

(** [min(1.0, x)]: Python returns the first argument unless a later one
    is strictly smaller. *)
Definition py_min (a b : Q) : Q := if Qltb b a then b else a.

(** [round(x, 2)]: the nearest multiple of 1/100, ties to even. *)
Definition round_half_even (x : Q) : Z :=
  let n := Qfloor x in
  let d := (x - inject_Z n)%Q in
  if Qltb d (1 # 2) then n
  else if Qltb (1 # 2) d then (n + 1)%Z
  else if Z.even n then n else (n + 1)%Z.

Definition round2 (x : Q) : Q := round_half_even (x * 100) # 100.

Definition risk_score (ratio : Q) : Q :=
  py_min 1 ((1 # 10) + (8 # 10) * ratio)%Q.

Definition risk_label (score : Q) : string :=
  if Qltb (65 # 100) score then "high"
  else if Qltb (35 # 100) score then "medium"
  else "low".

Section Service.

(** [CACHE_TTL = int(os.getenv("CACHE_TTL", "300"))] *)
Variable CACHE_TTL : Z.

(** ** Fetching transactions *)

(** [address in CACHE and time.time() - CACHE[address]["timestamp"] < CACHE_TTL] *)
Definition cache_get (now : Q) (k : pykey) (c : gmap pykey CacheEntry)
    : option (list TransactionRecord) :=
  match c !! k with
  | Some e =>
      if Qltb (now - entry_timestamp e) (inject_Z CACHE_TTL)
      then Some (entry_data e) else None
  | None => None
  end.

(** The [try] block: [client.get], [raise_for_status], [response.json()]. *)
Definition try_fetch (r : upstream_reply) : result (list TransactionRecord) :=
  match r with
  | TransportError e => Raise e
  | Reply status body =>
      if (200 <=? status)%nat && (status <? 300)%nat then
        match body with
        | Some data => Return data
        | None => Raise (Exn "JSONDecodeError" "Expecting value")
        end
      else Raise (Exn "HTTPStatusError" "error response")
  end.

(** Line 67 looks the address up in the dictionary, which hashes it: a
    list or a dict raises [TypeError] there, before anything else happens.
    A fresh entry is returned as it is (line 68). Otherwise the GET is
    issued; any exception inside the [try] block returns the empty list
    (line 81) and only a reply that went through is stored under the
    address with the time read on line 84. *)
Definition get_transactions (env : fetch_env) (address : json) (w : world)
    : result (list TransactionRecord) * world :=
  match hashable address with
  | None => (Raise (unhashable address), w)
  | Some k =>
      match cache_get (now_check env) k (CACHE w) with
      | Some data => (Return data, w)
      | None =>
          let w1 := {| CACHE := CACHE w;
                       upstream_calls := address :: upstream_calls w |} in
          match try_fetch (reply env) with
          | Raise _ => (Return [], w1)
          | Return data =>
              (Return data,
               {| CACHE := <[k := {| entry_timestamp := now_store env;
                                     entry_data := data |}]> (CACHE w1);
                  upstream_calls := upstream_calls w1 |})
          end
      end
  end.

(** ** POST /score *)

(** The handler, with step 3 computed over the rationals; [score_f64]
    below computes the same step on doubles. *)
Definition score (env : score_env) (body : gmap string json) (w : world)
    : result response_body * world :=
  let address := body !! "address" in
  if falsy_opt address then
    (Return (ErrorBody "Missing 'address' field in request."), w)
  else
    let address := default JNull address in
    match get_transactions (fetch env) address w with
    | (Raise e, w') => (Raise e, w')
    | (Return tx_data, w') =>
        match tx_data with
        | [] =>
            (Return (ErrorBody "Failed to fetch transaction data from Helius."),
             w')
        | _ =>
            let features :=
              extract_features_from_helius (now_extract env) tx_data address in
            let score := risk_score (incoming_ratio features) in
            let label := risk_label score in
            (Return (ScoreBody (round2 score) label features), w')
        end
    end.

End Service.

(** ** POST /simulate *)

Definition simulate (env : simulate_env) (body : gmap string json)
    : result response_body :=
  let encoded_tx := body !! "tx" in
  if falsy_opt encoded_tx then
    Return (ErrorBody
      "Missing 'tx' field — expected base64-encoded transaction")
  else
    let encoded_tx := default JNull encoded_tx in
    let attempt :=
      match b64decode env encoded_tx with
      | Raise e => Raise e
      | Return tx_bytes =>
          match simulate_transaction env tx_bytes with
          | Raise e => Raise e
          | Return value =>
              Return (SimulateBody
                (match value with Some v => logs v | None => [] end)
                (match value with Some v => units_consumed v | None => None end)
                (match value with Some v => err v | None => None end))
          end
      end in
    match attempt with
    | Return r => Return r
    | Raise e => Return (ErrorBody (exn_str e))
    end.


(** ** Risk score in binary64

    Lines 146 to 151 on doubles. [float] is the kernel's binary64 type, so
    [+], [*], [/] and [<?] below are the operations Python performs. *)

(** [float(n)], exact below 2^53. *)
Definition f64_of_nat (n : nat) : float :=
  PrimFloat.of_uint63 (Uint63.of_Z (Z.of_nat n)).

(** The double that line 108 stores under "incoming_ratio". *)
Definition ratio_f64 (features : FeatureSet) : float :=
  if (0 <? tx_count features)%nat
  then (f64_of_nat (incoming_tx_count features) /
        f64_of_nat (tx_count features))%float
  else 0%float.

(** [min(1.0, 0.1 + 0.8 * ratio)]: the second argument is returned when
    it compares below the first. *)
#[warnings="-inexact-float"]
Definition risk_score_f64 (ratio : float) : float :=
  let raw := (0.1 + 0.8 * ratio)%float in
  if (raw <? 1)%float then raw else 1%float.

#[warnings="-inexact-float"]
Definition high_above : float := 0.65%float.

#[warnings="-inexact-float"]
Definition medium_above : float := 0.35%float.

(** ["high" if score > 0.65 else "medium" if score > 0.35 else "low"] *)
Definition risk_label_f64 (score : float) : string :=
  if (high_above <? score)%float then "high"
  else if (medium_above <? score)%float then "medium"
  else "low".

(** The rational a finite double stands for (infinities and NaN stand for
    none; the minimum with 1.0 of a sum of non-negative doubles is finite). *)
Definition SF2Q (x : spec_float) : Q :=
  match x with
  | S754_finite s m e =>
      (inject_Z (if s then Z.neg m else Z.pos m) * Qpower 2 e)%Q
  | _ => 0%Q
  end.

Definition f64_value (x : float) : Q := SF2Q (Prim2SF x).

(** Steps 3 and 4 of the handler: [round(score, 2)] rounds the value of
    the double to hundredths, ties to even, and the response prints that
    decimal. *)
Definition scorer_f64 (features : FeatureSet) : response_body :=
  let score := risk_score_f64 (ratio_f64 features) in
  let label := risk_label_f64 score in
  ScoreBody (round2 (f64_value score)) label features.

(** POST /score with the score computed in binary64. *)
Definition score_f64 (ttl : Z) (env : score_env) (body : gmap string json)
    (w : world) : result response_body * world :=
  let address := body !! "address" in
  if falsy_opt address then
    (Return (ErrorBody "Missing 'address' field in request."), w)
  else
    let address := default JNull address in
    match get_transactions ttl (fetch env) address w with
    | (Raise e, w') => (Raise e, w')
    | (Return tx_data, w') =>
        match tx_data with
        | [] =>
            (Return (ErrorBody "Failed to fetch transaction data from Helius."),
             w')
        | _ =>
            let features :=
              extract_features_from_helius (now_extract env) tx_data address in
            (Return (scorer_f64 features), w')
        end
    end.



(** ** Reference counts

    What the loops of the extractor are meant to compute, stated on the
    flattened list of native-transfer entries. *)

Definition transfers_of (tx : TransactionRecord) : list NativeTransfer :=
  default [] (nativeTransfers tx).

Definition receives (address : json) (t : NativeTransfer) : bool :=
  py_eq_account (toUserAccount t) address.

Definition sends_only (address : json) (t : NativeTransfer) : bool :=
  negb (receives address t) && py_eq_account (fromUserAccount t) address.

Definition count_received (address : json) (data : list TransactionRecord)
    : nat :=
  length (List.filter (receives address) (flat_map transfers_of data)).

Definition count_sent (address : json) (data : list TransactionRecord)
    : nat :=
  length (List.filter (sends_only address) (flat_map transfers_of data)).

(** A timestamp the extractor looks at: present and non-zero. *)
Definition seen_timestamp (data : list TransactionRecord) (m : Z) : Prop :=
  m <> 0%Z /\ exists tx, In tx data /\ timestamp tx = Some m.

(** ** Composite runs *)

Definition logged (address : json) (w : world) : world :=
  {| CACHE := CACHE w; upstream_calls := address :: upstream_calls w |}.

Definition stored (k : pykey) (t : Q) (data : list TransactionRecord)
    (w : world) : world :=
  {| CACHE := <[k := {| entry_timestamp := t; entry_data := data |}]> (CACHE w);
     upstream_calls := upstream_calls w |}.

(** Two runs of [get_transactions] for one address, one after the other. *)
Definition fetch_twice (ttl : Z) (env1 env2 : fetch_env) (address : json)
    (w : world)
    : result (list TransactionRecord) * result (list TransactionRecord)
      * world :=
  let '(r1, w1) := get_transactions ttl env1 address w in
  let '(r2, w2) := get_transactions ttl env2 address w1 in
  (r1, r2, w2).

(** ** Concrete inputs *)

Definition transfer (from to : string) : NativeTransfer :=
  {| fromUserAccount := Some from; toUserAccount := Some to |}.

(** The two-record history of the specification's scenario. *)
Definition scenario_records : list TransactionRecord :=
  [ {| nativeTransfers := Some [transfer "X" "A"]; timestamp := None |};
    {| nativeTransfers := Some [transfer "A" "Y"]; timestamp := None |} ].

(** One record with two entries that pay the address. *)
Definition double_incoming : list TransactionRecord :=
  [ {| nativeTransfers := Some [transfer "X" "A"; transfer "Y" "A"];
       timestamp := None |} ].

(** One record stamped with the epoch itself. *)
Definition epoch_records : list TransactionRecord :=
  [ {| nativeTransfers := None; timestamp := Some 0%Z |} ].

(** One record stamped 2023-11-14T22:13:20Z. *)
Definition stamped_records : list TransactionRecord :=
  [ {| nativeTransfers := Some [transfer "X" "A"];
       timestamp := Some 1700000000%Z |} ].

(** A history of [n] records of which the first [i] pay "A". *)
Definition history (i n : nat) : list TransactionRecord :=
  (repeat {| nativeTransfers := Some [transfer "X" "A"]; timestamp := None |} i
   ++ repeat {| nativeTransfers := Some [transfer "X" "Y"]; timestamp := None |}
        (n - i))%list.

Definition empty_world : world := {| CACHE := ∅; upstream_calls := [] |}.

(** An environment in which the clock reads [t] throughout and the
    history API answers [r]. *)
Definition fetch_at (t : Q) (r : upstream_reply) : fetch_env :=
  {| now_check := t; reply := r; now_store := t |}.

Definition score_at (t : Q) (r : upstream_reply) : score_env :=
  {| fetch := fetch_at t r; now_extract := t |}.

(** A decoder that rejects its input, and an RPC that is never reached. *)
Definition rejecting_env : simulate_env :=
  {| b64decode := fun _ => Raise (Exn "binascii.Error" "Incorrect padding");
     simulate_transaction := fun _ => Return None |}.

(** ** Serving requests one after the other

    The three routes of the application; a sequence of requests is served
    one at a time, each handler running to completion on the world the
    previous one left. *)

Inductive request : Type :=
| GetHealth
| PostScore (env : score_env) (body : gmap string json)
| PostSimulate (env : simulate_env) (body : gmap string json).

Definition serve (ttl : Z) (r : request) (w : world)
    : result response_body * world :=
  match r with
  | GetHealth => (Return health, w)
  | PostScore env body => score ttl env body w
  | PostSimulate env body => (simulate env body, w)
  end.

Fixpoint run (ttl : Z) (rs : list request) (w : world) : world :=
  match rs with
  | [] => w
  | r :: rs => run ttl rs (snd (serve ttl r w))
  end.

(** Every cache entry sits under the key of a truthy address for which a
    GET has been issued. *)
Definition cache_backed (w : world) : Prop :=
  forall k, is_Some (CACHE w !! k) ->
    exists a, In a (upstream_calls w) /\ hashable a = Some k /\
              truthy a = true.

(** ** Arithmetic on rationals *)

Lemma Qltb_lt (x y : Q) : Qltb x y = true <-> (x < y)%Q.
Proof.
  unfold Qltb. rewrite negb_true_iff, <- not_true_iff_false, Qle_bool_iff.
  split; [apply Qnot_le_lt | apply Qlt_not_le].
Qed.

Lemma Qltb_ge (x y : Q) : Qltb x y = false <-> (y <= x)%Q.
Proof.
  unfold Qltb. rewrite negb_false_iff. apply Qle_bool_iff.
Qed.

Lemma ratio_nonneg (i n : nat) :
  (0 < n)%nat ->
  (0 <= inject_Z (Z.of_nat i) / inject_Z (Z.of_nat n))%Q.
Proof.
  intros Hn. apply Qle_shift_div_l.
  - change 0%Q with (inject_Z 0). rewrite <- Zlt_Qlt. lia.
  - rewrite Qmult_0_l. change 0%Q with (inject_Z 0). rewrite <- Zle_Qle. lia.
Qed.

Lemma ratio_le_1 (i n : nat) :
  (0 < n)%nat -> (i <= n)%nat ->
  (inject_Z (Z.of_nat i) / inject_Z (Z.of_nat n) <= 1)%Q.
Proof.
  intros Hn Hi. apply Qle_shift_div_r.
  - change 0%Q with (inject_Z 0). rewrite <- Zlt_Qlt. lia.
  - rewrite Qmult_1_l, <- Zle_Qle. lia.
Qed.

(** ** The loops of the extractor *)

Lemma transfer_loop address ts st :
  let st' := fold_left (transfer_step address) ts st in
  incoming st' = (incoming st + length (List.filter (receives address) ts))%nat
  /\ outgoing st' =
       (outgoing st + length (List.filter (sends_only address) ts))%nat
  /\ last_tx_timestamp st' = last_tx_timestamp st.
Proof.
  revert st. induction ts as [|t ts IH]; intros st; simpl.
  - repeat split; lia.
  - destruct (IH (transfer_step address st t)) as (Hi & Ho & Hl).
    rewrite Hi, Ho, Hl. unfold transfer_step, sends_only, receives.
    destruct (py_eq_account (toUserAccount t) address); simpl;
      [repeat split; lia|].
    destruct (py_eq_account (fromUserAccount t) address); simpl;
      repeat split; lia.
Qed.

Lemma tx_step_counts address st tx :
  incoming (tx_step address st tx) =
    (incoming st + length (List.filter (receives address) (transfers_of tx)))%nat
  /\ outgoing (tx_step address st tx) =
    (outgoing st + length (List.filter (sends_only address) (transfers_of tx)))%nat.
Proof.
  unfold tx_step.
  destruct (transfer_loop address (default [] (nativeTransfers tx)) st)
    as (Hi & Ho & _).
  fold (transfers_of tx) in *.
  destruct (newer _ _); simpl; auto.
Qed.

Lemma tx_loop_counts address data st :
  let st' := fold_left (tx_step address) data st in
  incoming st' =
    (incoming st +
     length (List.filter (receives address) (flat_map transfers_of data)))%nat
  /\ outgoing st' =
    (outgoing st +
     length (List.filter (sends_only address) (flat_map transfers_of data)))%nat.
Proof.
  revert st. induction data as [|tx data IH]; intros st; simpl.
  - split; lia.
  - destruct (IH (tx_step address st tx)) as (Hi & Ho).
    destruct (tx_step_counts address st tx) as (Hi1 & Ho1).
    rewrite Hi, Ho, Hi1, Ho1, !List.filter_app, !length_app. split; lia.
Qed.

Lemma extract_counts now data address :
  let f := extract_features_from_helius now data address in
  tx_count f = length data
  /\ incoming_tx_count f = count_received address data
  /\ outgoing_tx_count f = count_sent address data.
Proof.
  destruct (tx_loop_counts address data counters0) as (Hi & Ho).
  simpl. rewrite Hi, Ho. repeat split.
Qed.

Lemma extract_ratio now data address :
  incoming_ratio (extract_features_from_helius now data address) =
  if (0 <? length data)%nat
  then (inject_Z (Z.of_nat (count_received address data)) /
        inject_Z (Z.of_nat (length data)))%Q
  else 0%Q.
Proof.
  destruct (tx_loop_counts address data counters0) as (Hi & _).
  simpl. rewrite Hi. reflexivity.
Qed.

(** With at most one receiving entry per record, the number of receiving
    entries is bounded by the number of records. *)
Lemma count_received_le address data :
  (forall tx, In tx data ->
     (length (List.filter (receives address) (transfers_of tx)) <= 1)%nat) ->
  (count_received address data <= length data)%nat.
Proof.
  unfold count_received. induction data as [|tx data IH]; intros H; simpl.
  - lia.
  - rewrite List.filter_app, length_app.
    specialize (H tx (or_introl eq_refl)) as H1.
    specialize (IH (fun tx' Hin => H tx' (or_intror Hin))). lia.
Qed.

Lemma tx_step_last address st tx :
  last_tx_timestamp (tx_step address st tx) =
  if newer (timestamp tx) (last_tx_timestamp st)
  then timestamp tx else last_tx_timestamp st.
Proof.
  unfold tx_step.
  destruct (transfer_loop address (default [] (nativeTransfers tx)) st)
    as (_ & _ & Hl).
  simpl in Hl. rewrite Hl. destruct (newer _ _); simpl; auto.
Qed.

Lemma newer_true ts last :
  newer ts last = true ->
  exists m, ts = Some m /\ m <> 0%Z /\ forall l, last = Some l -> (l < m)%Z.
Proof.
  unfold newer. destruct ts as [m|]; [|discriminate].
  rewrite andb_true_iff, negb_true_iff, Z.eqb_neq. intros [Hm Hl].
  exists m. repeat split; auto. intros l ->. lia.
Qed.

Lemma newer_false m last :
  newer (Some m) last = false -> m <> 0%Z ->
  exists l, last = Some l /\ (m <= l)%Z.
Proof.
  unfold newer. intros H Hm.
  apply Z.eqb_neq in Hm. rewrite Hm in H. simpl in H.
  destruct last as [l|]; [|discriminate]. exists l. split; auto. lia.
Qed.

Lemma seen_timestamp_cons tx data m :
  seen_timestamp (tx :: data) m <->
  (m <> 0%Z /\ timestamp tx = Some m) \/ seen_timestamp data m.
Proof.
  unfold seen_timestamp. split.
  - intros (Hm & tx' & [<- | Hin] & Hts); [left; auto|].
    right. split; auto. exists tx'. auto.
  - intros [(Hm & Hts) | (Hm & tx' & Hin & Hts)]; split; auto.
    + exists tx. split; [left|]; auto.
    + exists tx'. split; [right|]; auto.
Qed.

(** The loop keeps the largest non-zero timestamp met so far. *)
Lemma tx_loop_last address data st :
  match last_tx_timestamp (fold_left (tx_step address) data st) with
  | None =>
      last_tx_timestamp st = None /\ forall m, ~ seen_timestamp data m
  | Some m =>
      (forall m', seen_timestamp data m' -> (m' <= m)%Z)
      /\ (forall l, last_tx_timestamp st = Some l -> (l <= m)%Z)
      /\ (seen_timestamp data m \/ last_tx_timestamp st = Some m)
  end.
Proof.
  revert st. induction data as [|tx data IH]; intros st; simpl.
  - destruct (last_tx_timestamp st) as [l|].
    + repeat split; [intros m' (_ & ? & [] & _) | intros ? [= <-]; lia | auto].
    + split; [auto | intros m (_ & ? & [] & _)].
  - specialize (IH (tx_step address st tx)).
    pose proof (tx_step_last address st tx) as Hstep.
    destruct (last_tx_timestamp (fold_left _ data _)) as [m|].
    + destruct IH as (Hub & Hlow & Hwit).
      destruct (newer (timestamp tx) (last_tx_timestamp st)) eqn:Hn.
      * apply newer_true in Hn as (t & Hts & Ht0 & Hlt).
        rewrite Hts in Hstep.
        repeat split.
        -- intros m' [(Hm' & Hts') | Hs]%seen_timestamp_cons; auto.
           rewrite Hts in Hts'. injection Hts' as <-. auto.
        -- intros l Hl. specialize (Hlt l Hl). specialize (Hlow t Hstep). lia.
        -- destruct Hwit as [Hs | Hs].
           ++ left. apply seen_timestamp_cons. auto.
           ++ left. apply seen_timestamp_cons. left.
              rewrite Hstep in Hs. injection Hs as ->. auto.
      * repeat split.
        -- intros m' [(Hm' & Hts') | Hs]%seen_timestamp_cons; auto.
           rewrite Hts' in Hn.
           apply newer_false in Hn as (l & Hl & Hle); auto.
           rewrite Hl in Hstep. specialize (Hlow l Hstep). lia.
        -- intros l Hl. rewrite Hl in Hstep. auto.
        -- destruct Hwit as [Hs | Hs].
           ++ left. apply seen_timestamp_cons. auto.
           ++ right. congruence.
    + destruct IH as (Hnone & Hno).
      destruct (newer (timestamp tx) (last_tx_timestamp st)) eqn:Hn.
      * apply newer_true in Hn as (t & Hts & _). congruence.
      * split; [congruence|].
        intros m [(Hm & Hts) | Hs]%seen_timestamp_cons; [|eapply Hno; eauto].
        rewrite Hts in Hn. apply newer_false in Hn as (l & Hl & _); auto.
        congruence.
Qed.

(** The timestamp kept at the end of the loop is never zero. *)
Lemma extract_last address data :
  match last_tx_timestamp (fold_left (tx_step address) data counters0) with
  | None => forall m, ~ seen_timestamp data m
  | Some m =>
      seen_timestamp data m /\ forall m', seen_timestamp data m' -> (m' <= m)%Z
  end.
Proof.
  pose proof (tx_loop_last address data counters0) as H.
  destruct (last_tx_timestamp _) as [m|].
  - destruct H as (Hub & _ & [Hs | Hs]); [auto | discriminate].
  - apply H.
Qed.

Lemma extract_recent now data address :
  recent_activity_days (extract_features_from_helius now data address) =
  match last_tx_timestamp (fold_left (tx_step address) data counters0) with
  | Some l => Some ((now - inject_Z l) / inject_Z 86400)%Q
  | None => None
  end.
Proof.
  pose proof (extract_last address data) as H. simpl.
  destruct (last_tx_timestamp _) as [l|]; auto.
  destruct H as ((Hl & _) & _). apply Z.eqb_neq in Hl. by rewrite Hl.
Qed.

(** ** Feature extraction: the claims *)

(** C1 (as amended): the incoming ratio is always defined and never
    negative, and it lies in [0,1] whenever no record holds more than one
    native-transfer entry whose receiver is the address. *)
Theorem incoming_ratio_bounds now data address :
  let r := incoming_ratio (extract_features_from_helius now data address) in
  (0 <= r)%Q /\
  ((forall tx, In tx data ->
      (length (List.filter (receives address) (transfers_of tx)) <= 1)%nat) ->
   (r <= 1)%Q).
Proof.
  cbv zeta. rewrite extract_ratio.
  destruct (0 <? length data)%nat eqn:Hn.
  - apply Nat.ltb_lt in Hn. split.
    + by apply ratio_nonneg.
    + intros H. apply ratio_le_1; [done|]. by apply count_received_le.
  - split; [apply Qle_refl | intros _; discriminate].
Qed.

Lemma incoming_ratio_bounds_witness :
  (0 <= incoming_ratio
          (extract_features_from_helius 0 scenario_records (JStr "A")) <= 1)%Q.
Proof.
  destruct (incoming_ratio_bounds 0 scenario_records (JStr "A")) as [H0 H1].
  split; [exact H0 | apply H1].
  intros tx [<- | [<- | []]]; vm_compute; lia.
Defined.

(** C1 (as stated) fails: a single record with two entries paying the
    address gives incoming = 2 and tx_count = 1, hence a ratio of 2. *)
Lemma incoming_ratio_exceeds_one :
  let f := extract_features_from_helius 0 double_incoming (JStr "A") in
  tx_count f = 1%nat /\ incoming_tx_count f = 2%nat /\
  (incoming_ratio f == 2)%Q /\ ~ (0 <= incoming_ratio f <= 1)%Q.
Proof.
  repeat split. intros [_ H]. vm_compute in H. by apply H.
Qed.

(** C5: the extractor counts as incoming every native-transfer entry whose
    receiver is the address, and as outgoing every entry whose sender is the
    address and whose receiver is not; on the two-record scenario it yields
    incoming = 1, outgoing = 1, tx_count = 2, incoming_ratio = 0.5, and the
    handler answers score 0.5 with label "medium". An entry from the
    address to itself counts as incoming only. *)
Theorem extract_counts_transfers :
  (forall now data address,
     let f := extract_features_from_helius now data address in
     tx_count f = length data /\
     incoming_tx_count f =
       length (List.filter (fun t => py_eq_account (toUserAccount t) address)
                 (flat_map transfers_of data)) /\
     outgoing_tx_count f =
       length (List.filter
                 (fun t => negb (py_eq_account (toUserAccount t) address)
                           && py_eq_account (fromUserAccount t) address)
                 (flat_map transfers_of data))) /\
  (let f := extract_features_from_helius 0 scenario_records (JStr "A") in
   incoming_tx_count f = 1%nat /\ outgoing_tx_count f = 1%nat /\
   tx_count f = 2%nat /\ (incoming_ratio f == 1 # 2)%Q /\
   recent_activity_days f = None /\
   (risk_score (incoming_ratio f) == 1 # 2)%Q /\
   risk_label (risk_score (incoming_ratio f)) = "medium" /\
   exists s w,
     score 300 (score_at 0 (Reply 200 (Some scenario_records)))
       {[ "address" := JStr "A" ]} empty_world
     = (Return (ScoreBody s "medium" f), w) /\ (s == 1 # 2)%Q) /\
  (forall now a,
     let f := extract_features_from_helius now
                [ {| nativeTransfers := Some [transfer a a];
                     timestamp := None |} ] (JStr a) in
     incoming_tx_count f = 1%nat /\ outgoing_tx_count f = 0%nat).
Proof.
  split; [|split].
  - intros now data address. apply extract_counts.
  - repeat split. eexists _, _. split; [vm_compute; reflexivity | reflexivity].
  - intros now a. cbn. unfold transfer_step. cbn. by rewrite String.eqb_refl.
Qed.

(** The recency is absent exactly when no record carries a non-zero
    timestamp, and otherwise is computed from the largest one. *)
Lemma recent_activity_days_cases now data address :
  let f := extract_features_from_helius now data address in
  (recent_activity_days f = None <-> forall m, ~ seen_timestamp data m) /\
  (forall m, seen_timestamp data m ->
     (forall m', seen_timestamp data m' -> (m' <= m)%Z) ->
     recent_activity_days f = Some ((now - inject_Z m) / inject_Z 86400)%Q).
Proof.
  cbv zeta. rewrite extract_recent.
  pose proof (extract_last address data) as H.
  repeat split.
  - destruct (last_tx_timestamp _) as [l|]; [discriminate | auto].
  - intros Hno. destruct (last_tx_timestamp _) as [l|]; [|done].
    destruct H as [Hs _]. by apply Hno in Hs.
  - intros m Hs Hmax. destruct (last_tx_timestamp _) as [l|].
    + destruct H as [Hl Hub].
      assert (l = m) as -> by (specialize (Hub m Hs); specialize (Hmax l Hl); lia).
      reflexivity.
    + by apply H in Hs.
Qed.

(** C6 (as amended): a timestamp that is absent, null or 0 is ignored;
    recent_activity_days is (now - m) / 86400 for the largest non-zero
    timestamp m whenever some record carries a non-zero timestamp, and is
    absent exactly when no record does; with tx_count = 0 the ratio is 0
    and recent_activity_days is absent. *)
Theorem recent_activity_days_spec now data address :
  let f := extract_features_from_helius now data address in
  (recent_activity_days f = None <-> forall m, ~ seen_timestamp data m) /\
  (forall m, seen_timestamp data m ->
     (forall m', seen_timestamp data m' -> (m' <= m)%Z) ->
     recent_activity_days f = Some ((now - inject_Z m) / inject_Z 86400)%Q) /\
  (tx_count f = 0%nat ->
     incoming_ratio f = 0%Q /\ recent_activity_days f = None).
Proof.
  cbv zeta.
  destruct (recent_activity_days_cases now data address) as [Hnone Hsome].
  split; [exact Hnone|]. split; [exact Hsome|].
  destruct data; [split; reflexivity | discriminate].
Qed.

Lemma recent_activity_days_spec_witness :
  recent_activity_days
    (extract_features_from_helius 1700086400 stamped_records (JStr "A"))
  = Some ((1700086400 - inject_Z 1700000000) / inject_Z 86400)%Q.
Proof.
  apply (recent_activity_days_spec 1700086400 stamped_records (JStr "A")).
  - split; [lia|]. eexists. split; [by left | reflexivity].
  - intros m' (Hm' & tx & [<- | []] & [= <-]). lia.
Defined.

(** C6 (as stated) fails: a record whose timestamp is 0 does carry a
    timestamp, yet recent_activity_days is absent. *)
Lemma epoch_timestamp_ignored :
  (exists tx, In tx epoch_records /\ timestamp tx = Some 0%Z) /\
  recent_activity_days
    (extract_features_from_helius 1700000000 epoch_records (JStr "A"))
  <> Some ((1700000000 - inject_Z 0) / inject_Z 86400)%Q /\
  recent_activity_days
    (extract_features_from_helius 1700000000 epoch_records (JStr "A")) = None.
Proof.
  split; [|split; [discriminate | reflexivity]].
  eexists. split; [by left | reflexivity].
Qed.

(** C9 (as amended): the extractor does no I/O except reading the clock;
    for fixed records and address the counts and the ratio are the same in
    every invocation, the whole FeatureSet is the same when no record
    carries a non-zero timestamp, and otherwise recent_activity_days is
    (now - m) / 86400 for the clock reading of that invocation. *)
Theorem extract_clock_dependence now1 now2 data address :
  let f1 := extract_features_from_helius now1 data address in
  let f2 := extract_features_from_helius now2 data address in
  tx_count f1 = tx_count f2 /\
  incoming_tx_count f1 = incoming_tx_count f2 /\
  outgoing_tx_count f1 = outgoing_tx_count f2 /\
  incoming_ratio f1 = incoming_ratio f2 /\
  ((forall m, ~ seen_timestamp data m) -> f1 = f2) /\
  (forall m, seen_timestamp data m ->
     (forall m', seen_timestamp data m' -> (m' <= m)%Z) ->
     recent_activity_days f1 = Some ((now1 - inject_Z m) / inject_Z 86400)%Q /\
     recent_activity_days f2 = Some ((now2 - inject_Z m) / inject_Z 86400)%Q).
Proof.
  cbv zeta. repeat split.
  - intros Hno.
    pose proof (proj1 (recent_activity_days_cases now1 data address)) as H1.
    pose proof (proj1 (recent_activity_days_cases now2 data address)) as H2.
    apply H1 in Hno as Hr1. apply H2 in Hno as Hr2.
    clear H1 H2. unfold extract_features_from_helius in *. simpl in *.
    by rewrite Hr1, Hr2.
  - by apply recent_activity_days_cases.
  - by apply recent_activity_days_cases.
Qed.

Lemma extract_clock_dependence_witness :
  extract_features_from_helius 0 scenario_records (JStr "A") =
  extract_features_from_helius 86400 scenario_records (JStr "A").
Proof.
  apply (extract_clock_dependence 0 86400 scenario_records (JStr "A")).
  intros m (_ & tx & [<- | [<- | []]] & [=]).
Defined.

(** C9 (as stated) fails: the same records and address, read one day
    apart, give different FeatureSets. *)
Lemma extract_depends_on_clock :
  let f1 := extract_features_from_helius 1700086400 stamped_records (JStr "A") in
  let f2 := extract_features_from_helius 1700172800 stamped_records (JStr "A") in
  f1 <> f2 /\
  exists d1 d2,
    recent_activity_days f1 = Some d1 /\ recent_activity_days f2 = Some d2 /\
    (d1 == 1)%Q /\ (d2 == 2)%Q.
Proof.
  split; [discriminate|]. eexists _, _. repeat split.
Qed.

(** ** Risk score: the claims *)

Lemma round_half_even_near (y : Q) :
  (Qabs (inject_Z (round_half_even y) - y) <= 1 # 2)%Q.
Proof.
  pose proof (Qfloor_le y) as Hlo. pose proof (Qlt_floor y) as Hhi.
  rewrite inject_Z_plus in Hhi. change (inject_Z 1) with 1%Q in Hhi.
  apply Qabs_Qle_condition. unfold round_half_even.
  destruct (Qltb (y - inject_Z (Qfloor y)) (1 # 2)) eqn:H1.
  { apply Qltb_lt in H1. split; lra. }
  apply Qltb_ge in H1.
  destruct (Qltb (1 # 2) (y - inject_Z (Qfloor y))) eqn:H2.
  { apply Qltb_lt in H2. rewrite inject_Z_plus. change (inject_Z 1) with 1%Q.
    split; lra. }
  apply Qltb_ge in H2.
  destruct (Z.even (Qfloor y)); [split; lra|].
  rewrite inject_Z_plus. change (inject_Z 1) with 1%Q. split; lra.
Qed.

(** [round2 x] is a whole number of hundredths, at most half a hundredth
    away from [x]. *)
Lemma round2_near (x : Q) : (Qabs (round2 x - x) <= 1 # 200)%Q.
Proof.
  pose proof (round_half_even_near (x * 100)) as H.
  apply Qabs_Qle_condition in H. apply Qabs_Qle_condition.
  unfold round2. rewrite (Qmake_Qdiv (round_half_even (x * 100)) 100).
  set (k := inject_Z (round_half_even (x * 100))) in *.
  unfold Qdiv. change (/ inject_Z (Z.pos 100))%Q with (1 # 100)%Q.
  split; lra.
Qed.

Lemma py_min_Qmin (a b : Q) : (py_min a b == Qmin a b)%Q.
Proof.
  unfold py_min. destruct (Qltb b a) eqn:H.
  - apply Qltb_lt in H. symmetry. apply Q.min_r. lra.
  - apply Qltb_ge in H. symmetry. by apply Q.min_l.
Qed.

Lemma risk_label_cases (s : Q) :
  (risk_label s = "high" <-> (65 # 100 < s)%Q) /\
  (risk_label s = "medium" <-> (35 # 100 < s)%Q /\ (s <= 65 # 100)%Q) /\
  (risk_label s = "low" <-> (s <= 35 # 100)%Q).
Proof.
  unfold risk_label.
  destruct (Qltb (65 # 100) s) eqn:Hh;
    [apply Qltb_lt in Hh
    |apply Qltb_ge in Hh; destruct (Qltb (35 # 100) s) eqn:Hm;
      [apply Qltb_lt in Hm | apply Qltb_ge in Hm]];
    repeat split; intros;
    repeat match goal with H : _ /\ _ |- _ => destruct H end;
    first [reflexivity | discriminate | lra | exfalso; lra].
Qed.

(** Whenever the handler answers with a score, the score, the label and
    the features are related as in lines 143 to 153. *)
Lemma score_response ttl env body w s l f w' :
  score ttl env body w = (Return (ScoreBody s l f), w') ->
  s = round2 (risk_score (incoming_ratio f)) /\
  l = risk_label (risk_score (incoming_ratio f)).
Proof.
  unfold score. destruct (falsy_opt _); [discriminate|].
  destruct (get_transactions _ _ _ _) as [[data|e] w1]; [|discriminate].
  destruct data; [discriminate|]. intros [= <- <- <- <-]. done.
Qed.

(** *** The score on doubles *)

Lemma SFcompare_antisym x y :
  SFcompare y x = option_map CompOpp (SFcompare x y).
Proof.
  destruct x as [sx|sx| |sx mx ex], y as [sy|sy| |sy my ey]; simpl;
    try reflexivity;
    try (destruct sx; reflexivity); try (destruct sy; reflexivity);
    try (destruct sx, sy; reflexivity).
  destruct sx, sy; simpl; try reflexivity;
    rewrite (Z.compare_antisym ex ey);
    destruct (ex ?= ey)%Z; simpl; try reflexivity;
    rewrite ?(Pos.compare_cont_antisym mx my Eq); simpl; reflexivity.
Qed.

Lemma SFcompare_Some x y :
  x <> S754_nan -> y <> S754_nan -> exists c, SFcompare x y = Some c.
Proof. destruct x, y; simpl; eauto; congruence. Qed.

Lemma ltb_not_nan x y : (x <? y)%float = true -> Prim2SF x <> S754_nan.
Proof.
  rewrite ltb_spec. unfold SFltb. intros H Hn. rewrite Hn in H. discriminate.
Qed.

Lemma ltb_leb x y : (x <? y)%float = true -> (x <=? y)%float = true.
Proof.
  rewrite ltb_spec, leb_spec. unfold SFltb, SFleb.
  by destruct (SFcompare _ _) as [[]|].
Qed.

(** On numbers, [not (x < y)] is [y <= x]. *)
Lemma f64_not_ltb x y :
  Prim2SF x <> S754_nan -> Prim2SF y <> S754_nan ->
  (x <? y)%float = false <-> (y <=? x)%float = true.
Proof.
  intros Hx Hy. rewrite ltb_spec, leb_spec. unfold SFltb, SFleb.
  rewrite (SFcompare_antisym (Prim2SF x) (Prim2SF y)).
  destruct (SFcompare_Some _ _ Hx Hy) as [c ->].
  destruct c; simpl; split; congruence.
Qed.

Lemma medium_above_SF :
  Prim2SF medium_above = S754_finite false 6305039478318694 (-54).
Proof. vm_compute. reflexivity. Qed.

Lemma high_above_SF :
  Prim2SF high_above = S754_finite false 5854679515581645 (-53).
Proof. vm_compute. reflexivity. Qed.

Lemma one_SF : Prim2SF 1 = S754_finite false 4503599627370496 (-52).
Proof. vm_compute. reflexivity. Qed.

(** Nothing at or below 0.35 is above 0.65. *)
Lemma below_medium_not_high x :
  (x <=? medium_above)%float = true -> (high_above <? x)%float = false.
Proof.
  rewrite ltb_spec, leb_spec. unfold SFltb, SFleb.
  rewrite medium_above_SF, high_above_SF.
  destruct (Prim2SF x) as [s|s| |s m e]; cbn [SFcompare].
  - by destruct s.
  - by destruct s.
  - discriminate.
  - destruct s; [reflexivity|].
    destruct (Z.compare_spec e (-54)), (Z.compare_spec (-53) e);
      try lia; try reflexivity; try discriminate.
Qed.

(** The minimum with 1.0 is never NaN: NaN compares below nothing. *)
Lemma risk_score_f64_not_nan r : Prim2SF (risk_score_f64 r) <> S754_nan.
Proof.
  unfold risk_score_f64. destruct (_ <? 1)%float eqn:H.
  - by apply ltb_not_nan in H.
  - by rewrite one_SF.
Qed.

Lemma risk_label_f64_cases (sc : float) :
  Prim2SF sc <> S754_nan ->
  (risk_label_f64 sc = "high" <-> (high_above <? sc)%float = true) /\
  (risk_label_f64 sc = "medium" <->
     (medium_above <? sc)%float = true /\ (sc <=? high_above)%float = true) /\
  (risk_label_f64 sc = "low" <-> (sc <=? medium_above)%float = true).
Proof.
  intros Hsc.
  assert (Prim2SF high_above <> S754_nan) as Hh by (by rewrite high_above_SF).
  assert (Prim2SF medium_above <> S754_nan) as Hm
    by (by rewrite medium_above_SF).
  pose proof (f64_not_ltb _ _ Hh Hsc) as Hdh.
  pose proof (f64_not_ltb _ _ Hm Hsc) as Hdm.
  pose proof (below_medium_not_high sc) as Htr.
  unfold risk_label_f64.
  destruct (high_above <? sc)%float eqn:H1;
    [|destruct (medium_above <? sc)%float eqn:H2];
    repeat split; intros;
    repeat match goal with H : _ /\ _ |- _ => destruct H end;
    try reflexivity; try discriminate; try tauto;
    try (exfalso; intuition congruence).
Qed.

(** Whenever the binary64 handler answers with a score, the score and
    the label are those of [scorer_f64] on the features. *)
Lemma score_f64_response ttl env body w s l f w' :
  score_f64 ttl env body w = (Return (ScoreBody s l f), w') ->
  s = round2 (f64_value (risk_score_f64 (ratio_f64 f))) /\
  l = risk_label_f64 (risk_score_f64 (ratio_f64 f)).
Proof.
  unfold score_f64. destruct (falsy_opt _); [discriminate|].
  destruct (get_transactions _ _ _ _) as [[data|e] w1]; [|discriminate].
  destruct data; [discriminate|]. intros [= <- <- <- <-]. done.
Qed.

(** The two handlers differ in the scorer only. *)
Lemma score_f64_score ttl env body w :
  score_f64 ttl env body w =
  match score ttl env body w with
  | (Return (ScoreBody _ _ features), w') => (Return (scorer_f64 features), w')
  | other => other
  end.
Proof.
  unfold score_f64, score. destruct (falsy_opt _); [done|].
  destruct (get_transactions _ _ _ _) as [[data|e] w1]; [|done].
  by destruct data.
Qed.

(** C2: for a FeatureSet whose incoming_ratio r lies in [0,1], the handler
    computes score = min(1.0, 0.1 + 0.8 r) in binary64; the label is "high"
    iff score > 0.65, "medium" iff 0.35 < score <= 0.65 and "low" iff
    score <= 0.35; the score of the response is that double rounded to
    two decimal places. *)
#[warnings="-inexact-float"]
Theorem scorer_f64_spec ttl env body w s l f w' :
  score_f64 ttl env body w = (Return (ScoreBody s l f), w') ->
  (0 <=? ratio_f64 f)%float = true ->
  (ratio_f64 f <=? 1)%float = true ->
  let r := ratio_f64 f in
  let raw := (0.1 + 0.8 * r)%float in
  let sc := risk_score_f64 r in
  (((raw <? 1)%float = true /\ sc = raw) \/
   ((raw <? 1)%float = false /\ sc = 1%float)) /\
  (sc <=? 1)%float = true /\
  (l = "high" <-> (0.65 <? sc)%float = true) /\
  (l = "medium" <->
     (0.35 <? sc)%float = true /\ (sc <=? 0.65)%float = true) /\
  (l = "low" <-> (sc <=? 0.35)%float = true) /\
  s = round_half_even (f64_value sc * 100) # 100 /\
  (Qabs (s - f64_value sc) <= 1 # 200)%Q.
Proof.
  intros [-> ->]%score_f64_response _ _. cbv zeta.
  destruct (risk_label_f64_cases (risk_score_f64 (ratio_f64 f))
              (risk_score_f64_not_nan _)) as (Hh & Hm & Hl).
  split; [|split].
  - unfold risk_score_f64. destruct (_ <? 1)%float; auto.
  - unfold risk_score_f64. destruct (_ <? 1)%float eqn:H.
    + by apply ltb_leb.
    + vm_compute. reflexivity.
  - split; [exact Hh|]. split; [exact Hm|]. split; [exact Hl|].
    split; [reflexivity | apply round2_near].
Qed.

(** On the history with 5 paying records out of 32 the double is just
    above 0.225 and the response says 0.23. *)
#[warnings="-inexact-float"]
Lemma scorer_f64_spec_witness :
  let f := extract_features_from_helius 0 (history 5 32) (JStr "A") in
  let sc := risk_score_f64 (ratio_f64 f) in
  ((((0.1 + 0.8 * ratio_f64 f <? 1)%float = true /\
     sc = (0.1 + 0.8 * ratio_f64 f)%float) \/
    ((0.1 + 0.8 * ratio_f64 f <? 1)%float = false /\ sc = 1%float)) /\
   (sc <=? 1)%float = true /\
   ("low" = "high" <-> (0.65 <? sc)%float = true) /\
   ("low" = "medium" <->
      (0.35 <? sc)%float = true /\ (sc <=? 0.65)%float = true) /\
   ("low" = "low" <-> (sc <=? 0.35)%float = true) /\
   23 # 100 = round_half_even (f64_value sc * 100) # 100 /\
   (Qabs ((23 # 100) - f64_value sc) <= 1 # 200)%Q).
Proof.
  apply (scorer_f64_spec 300 (score_at 0 (Reply 200 (Some (history 5 32))))
           {[ "address" := JStr "A" ]} empty_world (23 # 100) "low"
           (extract_features_from_helius 0 (history 5 32) (JStr "A"))
           (snd (score_f64 300
                   (score_at 0 (Reply 200 (Some (history 5 32))))
                   {[ "address" := JStr "A" ]} empty_world)));
    vm_compute; reflexivity.
Defined.

(** On exact ties of the real-valued score the double decides: 5 of 32
    gives 0.23 and 15 of 32 gives 0.47. *)
Lemma scorer_f64_on_ties :
  scorer_f64 (extract_features_from_helius 0 (history 5 32) (JStr "A")) =
    ScoreBody (23 # 100) "low"
      (extract_features_from_helius 0 (history 5 32) (JStr "A")) /\
  scorer_f64 (extract_features_from_helius 0 (history 15 32) (JStr "A")) =
    ScoreBody (47 # 100) "medium"
      (extract_features_from_helius 0 (history 15 32) (JStr "A")).
Proof. split; vm_compute; reflexivity. Qed.

(** ** The cache and the fetcher *)

Lemma get_transactions_hit ttl env address k w data :
  hashable address = Some k ->
  cache_get ttl (now_check env) k (CACHE w) = Some data ->
  get_transactions ttl env address w = (Return data, w).
Proof. intros Hk Hc. unfold get_transactions. by rewrite Hk, Hc. Qed.

Lemma get_transactions_miss ttl env address k w :
  hashable address = Some k ->
  cache_get ttl (now_check env) k (CACHE w) = None ->
  get_transactions ttl env address w =
  match try_fetch (reply env) with
  | Raise _ => (Return [], logged address w)
  | Return data =>
      (Return data, stored k (now_store env) data (logged address w))
  end.
Proof. intros Hk Hc. unfold get_transactions. by rewrite Hk, Hc. Qed.

Lemma cache_get_fresh ttl now k c e :
  c !! k = Some e ->
  (now - entry_timestamp e < inject_Z ttl)%Q ->
  cache_get ttl now k c = Some (entry_data e).
Proof.
  intros Hk Hlt. unfold cache_get. rewrite Hk.
  apply Qltb_lt in Hlt. by rewrite Hlt.
Qed.

Lemma cache_get_stale ttl now k c e :
  c !! k = Some e ->
  (inject_Z ttl <= now - entry_timestamp e)%Q ->
  cache_get ttl now k c = None.
Proof.
  intros Hk Hge. unfold cache_get. rewrite Hk.
  apply Qltb_ge in Hge. by rewrite Hge.
Qed.

Lemma cache_get_Some ttl now k c data :
  cache_get ttl now k c = Some data ->
  exists e, c !! k = Some e /\ entry_data e = data /\
            (now - entry_timestamp e < inject_Z ttl)%Q.
Proof.
  unfold cache_get. destruct (c !! k) as [e|]; [|discriminate].
  destruct (Qltb _ _) eqn:Hlt; [|discriminate].
  intros [= <-]. exists e. repeat split. by apply Qltb_lt.
Qed.

Lemma try_fetch_Return r data :
  try_fetch r = Return data <->
  exists status, r = Reply status (Some data) /\ (200 <= status < 300)%nat.
Proof.
  unfold try_fetch. split.
  - destruct r as [e|status [body|]]; try discriminate.
    + destruct (_ && _) eqn:H; [|discriminate]. intros [= ->].
      apply andb_true_iff in H as [H1%Nat.leb_le H2%Nat.ltb_lt]. eauto.
    + destruct (_ && _); discriminate.
  - intros (status & -> & H1 & H2).
    apply Nat.leb_le in H1. apply Nat.ltb_lt in H2. by rewrite H1, H2.
Qed.

(** The three ways the [try] block fails. *)
Lemma try_fetch_Raise r :
  (exists e, try_fetch r = Raise e) <->
  (exists e, r = TransportError e) \/
  (exists status body, r = Reply status body /\ ~ (200 <= status < 300)%nat) \/
  (exists status, r = Reply status None).
Proof.
  unfold try_fetch. split.
  - destruct r as [e|status body]; [eauto|].
    destruct (_ && _) eqn:H.
    + destruct body; [intros [? [=]] | eauto].
    + intros _. right. left. exists status, body. split; [done|].
      apply andb_false_iff in H as [H%Nat.leb_gt | H%Nat.ltb_ge]; lia.
  - intros [(e & ->) | [(status & body & -> & H) | (status & ->)]]; [eauto| |].
    + destruct (_ && _) eqn:Hb; [|eauto].
      apply andb_true_iff in Hb as [H1%Nat.leb_le H2%Nat.ltb_lt]. lia.
    + destruct (_ && _); eauto.
Qed.

(** C4: when the upstream GET is issued and suffers a transport error, a
    non-2xx status or a body that is not JSON, [get_transactions] returns
    the empty sequence and leaves the cache unchanged; when it succeeds the
    parsed array is returned unchanged and is written into the cache under
    the address with the current timestamp, whatever the array, the empty
    one included. *)
Theorem fetch_outcome ttl env address k w :
  hashable address = Some k ->
  cache_get ttl (now_check env) k (CACHE w) = None ->
  let out := get_transactions ttl env address w in
  ((exists e, reply env = TransportError e) \/
   (exists status body,
      reply env = Reply status body /\ ~ (200 <= status < 300)%nat) \/
   (exists status, reply env = Reply status None) ->
   fst out = Return [] /\ CACHE (snd out) = CACHE w) /\
  (forall status data,
     reply env = Reply status (Some data) -> (200 <= status < 300)%nat ->
     fst out = Return data /\
     CACHE (snd out) =
       <[k := {| entry_timestamp := now_store env; entry_data := data |}]>
         (CACHE w) /\
     CACHE (snd out) !! k =
       Some {| entry_timestamp := now_store env; entry_data := data |}).
Proof.
  intros Hk Hmiss. cbv zeta.
  rewrite (get_transactions_miss _ _ _ _ _ Hk Hmiss). split.
  - intros [e He]%try_fetch_Raise. by rewrite He.
  - intros status data Hr Hs.
    assert (try_fetch (reply env) = Return data) as ->
      by (apply try_fetch_Return; eauto).
    simpl. repeat split. apply lookup_insert_eq.
Qed.

Lemma fetch_outcome_witness :
  let out :=
    get_transactions 300 (fetch_at 0 (Reply 200 (Some []))) (JStr "A")
      empty_world in
  fst out = Return [] /\
  CACHE (snd out) =
    <[KStr "A" := {| entry_timestamp := 0; entry_data := [] |}]> ∅ /\
  CACHE (snd out) !! KStr "A" =
    Some {| entry_timestamp := 0; entry_data := [] |}.
Proof.
  destruct (fetch_outcome 300 (fetch_at 0 (Reply 200 (Some []))) (JStr "A")
              (KStr "A") empty_world eq_refl eq_refl) as [_ H].
  apply (H 200%nat []); [reflexivity | lia].
Defined.

(** The handler leaves the world as [get_transactions] left it. *)
Lemma score_world ttl env body w address :
  body !! "address" = Some address -> truthy address = true ->
  snd (score ttl env body w) =
  snd (get_transactions ttl (fetch env) address w).
Proof.
  intros Hb Ht. unfold score. rewrite Hb. simpl. rewrite Ht. simpl.
  destruct (get_transactions _ _ _ _) as [[data|e] w1]; [|done].
  by destruct data.
Qed.

(** C7: an entry whose age has reached TTL is read as a miss and a new
    upstream GET is issued; the read deletes nothing: if the refetch
    fails the cache is unchanged and still holds the stale entry, and if it
    succeeds the entry is overwritten and no other key is touched. *)
Theorem stale_entry_kept ttl env address k e w :
  hashable address = Some k ->
  CACHE w !! k = Some e ->
  (inject_Z ttl <= now_check env - entry_timestamp e)%Q ->
  let out := get_transactions ttl env address w in
  cache_get ttl (now_check env) k (CACHE w) = None /\
  upstream_calls (snd out) = address :: upstream_calls w /\
  (forall x, try_fetch (reply env) = Raise x ->
     fst out = Return [] /\ CACHE (snd out) = CACHE w /\
     CACHE (snd out) !! k = Some e) /\
  (forall data, try_fetch (reply env) = Return data ->
     fst out = Return data /\
     CACHE (snd out) !! k =
       Some {| entry_timestamp := now_store env; entry_data := data |} /\
     forall k', k' <> k -> CACHE (snd out) !! k' = CACHE w !! k') /\
  (forall senv body,
     fetch senv = env -> body !! "address" = Some address ->
     truthy address = true ->
     upstream_calls (snd (score ttl senv body w)) =
       address :: upstream_calls w).
Proof.
  intros Hk He Hage. cbv zeta.
  pose proof (cache_get_stale _ _ _ _ _ He Hage) as Hmiss.
  pose proof (get_transactions_miss _ _ _ _ _ Hk Hmiss) as Hget.
  assert (upstream_calls (snd (get_transactions ttl env address w)) =
          address :: upstream_calls w) as Hcalls
    by (rewrite Hget; by destruct (try_fetch _)).
  split; [done|]. split; [done|]. rewrite Hget. repeat split.
  - by rewrite H.
  - by rewrite H.
  - by rewrite H.
  - by rewrite H.
  - rewrite H. apply lookup_insert_eq.
  - intros k' Hne. rewrite H. simpl. by apply lookup_insert_ne.
  - intros senv body <- Hb Ht.
    by rewrite (score_world _ _ _ _ _ Hb Ht).
Qed.

Lemma stale_entry_kept_witness :
  let w := stored (KStr "A") 0 scenario_records empty_world in
  let out :=
    get_transactions 300
      (fetch_at 300 (TransportError (Exn "ConnectError" "unreachable")))
      (JStr "A") w in
  upstream_calls (snd out) = [JStr "A"] /\
  fst out = Return [] /\ CACHE (snd out) = CACHE w /\
  CACHE (snd out) !! KStr "A" =
    Some {| entry_timestamp := 0; entry_data := scenario_records |}.
Proof.
  intros w.
  destruct (stale_entry_kept 300
              (fetch_at 300 (TransportError (Exn "ConnectError" "unreachable")))
              (JStr "A") (KStr "A")
              {| entry_timestamp := 0; entry_data := scenario_records |} w)
    as (_ & Hcalls & Hfail & _).
  - reflexivity.
  - reflexivity.
  - vm_compute. discriminate.
  - split; [exact Hcalls|]. by eapply Hfail.
Defined.

(** C3 (as amended): when the first fetch does not end in a failed
    upstream GET, two fetches for one address started less than TTL seconds
    apart issue at most one upstream GET; when the first fetch issues a GET
    that succeeds, the second is served from the cache with the same
    payload and issues none. The clock is assumed not to run backwards
    between the read on line 67 and the read on line 84. *)
Theorem fetch_twice_within_ttl ttl env1 env2 address k w r1 r2 w2 :
  hashable address = Some k ->
  (now_check env1 <= now_store env1)%Q ->
  (now_check env2 - now_check env1 < inject_Z ttl)%Q ->
  fetch_twice ttl env1 env2 address w = (r1, r2, w2) ->
  (forall data,
     cache_get ttl (now_check env1) k (CACHE w) = None ->
     try_fetch (reply env1) = Return data ->
     r1 = Return data /\ r2 = Return data /\
     upstream_calls w2 = address :: upstream_calls w) /\
  ((is_Some (cache_get ttl (now_check env1) k (CACHE w)) \/
    exists data, try_fetch (reply env1) = Return data) ->
   (length (upstream_calls w2) <= 1 + length (upstream_calls w))%nat).
Proof.
  intros Hk Hmono Hnear. unfold fetch_twice.
  assert (forall data,
    cache_get ttl (now_check env1) k (CACHE w) = None ->
    try_fetch (reply env1) = Return data ->
    get_transactions ttl env1 address w =
      (Return data, stored k (now_store env1) data (logged address w)) /\
    get_transactions ttl env2 address
      (stored k (now_store env1) data (logged address w)) =
      (Return data, stored k (now_store env1) data (logged address w)))
    as Hsucc.
  { intros data Hmiss Hok. split.
    - by rewrite (get_transactions_miss _ _ _ _ _ Hk Hmiss), Hok.
    - apply (get_transactions_hit _ _ _ k); [done|].
      eapply (cache_get_fresh _ _ _ _
                {| entry_timestamp := now_store env1; entry_data := data |}).
      + apply lookup_insert_eq.
      + simpl. lra. }
  intros Heq. split.
  - intros data Hmiss Hok. destruct (Hsucc data Hmiss Hok) as [H1 H2].
    rewrite H1, H2 in Heq. by injection Heq as <- <- <-.
  - destruct (cache_get ttl (now_check env1) k (CACHE w)) as [d|] eqn:Hc.
    + intros _. rewrite (get_transactions_hit _ _ _ _ _ _ Hk Hc) in Heq.
      destruct (cache_get ttl (now_check env2) k (CACHE w)) as [d2|] eqn:Hc2.
      * rewrite (get_transactions_hit _ _ _ _ _ _ Hk Hc2) in Heq.
        injection Heq as <- <- <-. lia.
      * rewrite (get_transactions_miss _ _ _ _ _ Hk Hc2) in Heq.
        destruct (try_fetch (reply env2)); injection Heq as <- <- <-;
          simpl; lia.
    + intros [[? [=]] | [data Hok]].
      destruct (Hsucc data eq_refl Hok) as [H1 H2].
      rewrite H1, H2 in Heq. injection Heq as <- <- <-. simpl. lia.
Qed.

Lemma fetch_twice_within_ttl_witness :
  let env1 := fetch_at 0 (Reply 200 (Some scenario_records)) in
  let env2 := fetch_at 299 (TransportError (Exn "ConnectError" "unreachable")) in
  let out := fetch_twice 300 env1 env2 (JStr "A") empty_world in
  fst (fst out) = Return scenario_records /\
  snd (fst out) = Return scenario_records /\
  upstream_calls (snd out) = [JStr "A"].
Proof.
  intros env1 env2 out.
  destruct (fetch_twice_within_ttl 300 env1 env2 (JStr "A") (KStr "A")
              empty_world (fst (fst out)) (snd (fst out)) (snd out))
    as [H _].
  - reflexivity.
  - vm_compute. discriminate.
  - reflexivity.
  - reflexivity.
  - apply (H scenario_records); reflexivity.
Defined.

(** C3 (as stated) fails: the first fetch fails, nothing is cached, and the
    second fetch ten seconds later issues a second upstream GET. *)
Lemma failed_fetch_is_refetched :
  let env1 := fetch_at 0 (TransportError (Exn "ConnectError" "unreachable")) in
  let env2 := fetch_at 10 (Reply 200 (Some scenario_records)) in
  let out := fetch_twice 300 env1 env2 (JStr "A") empty_world in
  (now_check env2 - now_check env1 < inject_Z 300)%Q /\
  fst (fst out) = Return [] /\
  upstream_calls (snd out) = [JStr "A"; JStr "A"] /\
  ~ (length (upstream_calls (snd out)) <= 1)%nat.
Proof.
  repeat split. vm_compute. lia.
Qed.

(** ** The handlers: the claims *)

Lemma score_missing ttl env body w :
  falsy_opt (body !! "address") = true ->
  score ttl env body w =
  (Return (ErrorBody "Missing 'address' field in request."), w).
Proof. intros H. unfold score. by rewrite H. Qed.

Lemma score_present ttl env body w v :
  body !! "address" = Some v -> truthy v = true ->
  score ttl env body w =
  match get_transactions ttl (fetch env) v w with
  | (Raise e, w') => (Raise e, w')
  | (Return [], w') =>
      (Return (ErrorBody "Failed to fetch transaction data from Helius."), w')
  | (Return tx_data, w') =>
      let features :=
        extract_features_from_helius (now_extract env) tx_data v in
      (Return (ScoreBody (round2 (risk_score (incoming_ratio features)))
                 (risk_label (risk_score (incoming_ratio features)))
                 features), w')
  end.
Proof.
  intros Hb Ht. unfold score. rewrite Hb. simpl. rewrite Ht. simpl.
  destruct (get_transactions _ _ _ _) as [[data|e] w1]; [|done].
  by destruct data.
Qed.




Lemma simulate_missing senv body :
  falsy_opt (body !! "tx") = true ->
  simulate senv body =
  Return (ErrorBody "Missing 'tx' field — expected base64-encoded transaction").
Proof. intros H. unfold simulate. by rewrite H. Qed.







(** C10: a required field that is present but equal to the empty string
    gets the same missing-field error as an absent field, in /score and in
    /simulate, because presence is tested by truthiness. *)
Theorem empty_string_is_missing ttl env senv body w :
  (body !! "address" = Some (JStr "") ->
   score ttl env body w =
     (Return (ErrorBody "Missing 'address' field in request."), w) /\
   score ttl env (delete "address" body) w = score ttl env body w) /\
  (body !! "tx" = Some (JStr "") ->
   simulate senv body =
     Return (ErrorBody
       "Missing 'tx' field — expected base64-encoded transaction") /\
   simulate senv (delete "tx" body) = simulate senv body).
Proof.
  split; intros Hb.
  - assert (falsy_opt (body !! "address") = true) as H1 by (by rewrite Hb).
    assert (falsy_opt (delete "address" body !! "address") = true) as H2
      by (by rewrite lookup_delete_eq).
    by rewrite (score_missing _ _ _ _ H1), (score_missing _ _ _ _ H2).
  - assert (falsy_opt (body !! "tx") = true) as H1 by (by rewrite Hb).
    assert (falsy_opt (delete "tx" body !! "tx") = true) as H2
      by (by rewrite lookup_delete_eq).
    by rewrite (simulate_missing _ _ H1), (simulate_missing _ _ H2).
Qed.

Lemma empty_string_is_missing_witness :
  score 300 (score_at 0 (Reply 200 (Some scenario_records)))
    {[ "address" := JStr "" ]} empty_world =
    (Return (ErrorBody "Missing 'address' field in request."), empty_world) /\
  simulate rejecting_env {[ "tx" := JStr "" ]} =
    Return (ErrorBody
      "Missing 'tx' field — expected base64-encoded transaction").
Proof.
  split.
  - apply (empty_string_is_missing 300
             (score_at 0 (Reply 200 (Some scenario_records))) rejecting_env
             {[ "address" := JStr "" ]} empty_world).
    reflexivity.
  - apply (empty_string_is_missing 300
             (score_at 0 (Reply 200 (Some scenario_records))) rejecting_env
             {[ "tx" := JStr "" ]} empty_world).
    reflexivity.
Defined.

(** ** Further properties of the fetcher *)

(** X1: [get_transactions] raises exactly when the address is a list or a
    dict; the exception is the TypeError of the dictionary lookup, raised
    before any request is issued and before the cache is touched. Hence
    /score with a non-empty list or dict as address raises that TypeError
    with the world unchanged, whatever upstream would reply. *)
Theorem get_transactions_raises_iff ttl env address w :
  ((exists e, fst (get_transactions ttl env address w) = Raise e) <->
   (exists items, address = JArr items) \/
   (exists members, address = JObj members)) /\
  (forall e, fst (get_transactions ttl env address w) = Raise e ->
     exn_class e = "TypeError" /\
     snd (get_transactions ttl env address w) = w) /\
  (forall senv body,
     fetch senv = env ->
     body !! "address" = Some address -> truthy address = true ->
     (exists items, address = JArr items) \/
     (exists members, address = JObj members) ->
     score ttl senv body w = (Raise (unhashable address), w) /\
     exn_class (unhashable address) = "TypeError").
Proof.
  assert (((exists e, fst (get_transactions ttl env address w) = Raise e) <->
           (exists items, address = JArr items) \/
           (exists members, address = JObj members)) /\
          (forall e, fst (get_transactions ttl env address w) = Raise e ->
             exn_class e = "TypeError" /\
             snd (get_transactions ttl env address w) = w)) as [H1 H2].
  { unfold get_transactions.
    destruct address; simpl;
      try (split; [split; eauto|intros e [= <-]; done]);
      (split;
       [split; [|intros [[? [=]] | [? [=]]]];
        destruct (cache_get _ _ _ _); [intros [? [=]]|];
        destruct (try_fetch _); intros [? [=]]
       |destruct (cache_get _ _ _ _); [intros ? [=]|];
        destruct (try_fetch _); intros ? [=]]). }
  split; [exact H1|]. split; [exact H2|].
  intros senv body <- Hb Ht Hshape.
  rewrite (score_present _ _ _ _ _ Hb Ht).
  destruct Hshape as [[items ->] | [members ->]]; done.
Qed.

(** What one run of [get_transactions] does to the log and to the keys. *)
Lemma get_transactions_effect ttl env address w :
  let w' := snd (get_transactions ttl env address w) in
  (upstream_calls w' = upstream_calls w \/
   upstream_calls w' = address :: upstream_calls w) /\
  (forall k, is_Some (CACHE w !! k) -> is_Some (CACHE w' !! k)).
Proof.
  cbv zeta. destruct (hashable address) as [k0|] eqn:Hk.
  - destruct (cache_get ttl (now_check env) k0 (CACHE w)) as [d|] eqn:Hc.
    + rewrite (get_transactions_hit _ _ _ _ _ _ Hk Hc). simpl. auto.
    + rewrite (get_transactions_miss _ _ _ _ _ Hk Hc).
      destruct (try_fetch _); simpl; split; auto.
      intros k Hsome. destruct (decide (k0 = k)) as [->|Hne].
      * rewrite lookup_insert_eq. by eexists.
      * by rewrite lookup_insert_ne.
  - unfold get_transactions. rewrite Hk. simpl. auto.
Qed.

(** X2: one run of [get_transactions] issues at most one GET, and only for
    its own address; it never removes a cache entry and never changes the
    entry of another key. *)
Theorem get_transactions_frame ttl env address w :
  let w' := snd (get_transactions ttl env address w) in
  (upstream_calls w' = upstream_calls w \/
   upstream_calls w' = address :: upstream_calls w) /\
  (forall k, is_Some (CACHE w !! k) -> is_Some (CACHE w' !! k)) /\
  (forall k, hashable address <> Some k -> CACHE w' !! k = CACHE w !! k).
Proof.
  cbv zeta. unfold get_transactions.
  destruct (hashable address) as [k0|]; [|simpl; auto].
  destruct (cache_get _ _ _ _); [simpl; auto|].
  destruct (try_fetch _); simpl; [|auto].
  repeat split; [auto| |].
  - intros k Hk. destruct (decide (k0 = k)) as [->|Hne].
    + rewrite lookup_insert_eq. by eexists.
    + by rewrite lookup_insert_ne.
  - intros k Hne. apply lookup_insert_ne. congruence.
Qed.

(** X3: reading an entry does not renew it. An entry that is fresh at the
    first fetch is returned with the world unchanged; once its age has
    reached TTL the next fetch issues a GET, however recently the entry was
    read. *)
Theorem hit_does_not_extend_ttl ttl env1 env2 address k e w :
  hashable address = Some k ->
  CACHE w !! k = Some e ->
  (now_check env1 - entry_timestamp e < inject_Z ttl)%Q ->
  (inject_Z ttl <= now_check env2 - entry_timestamp e)%Q ->
  get_transactions ttl env1 address w = (Return (entry_data e), w) /\
  fst (fst (fetch_twice ttl env1 env2 address w)) = Return (entry_data e) /\
  upstream_calls (snd (fetch_twice ttl env1 env2 address w)) =
    address :: upstream_calls w.
Proof.
  intros Hk He Hfresh Hstale.
  pose proof (get_transactions_hit _ env1 _ _ _ _ Hk
                (cache_get_fresh _ _ _ _ _ He Hfresh)) as H1.
  pose proof (get_transactions_miss _ env2 _ _ _ Hk
                (cache_get_stale _ _ _ _ _ He Hstale)) as H2.
  unfold fetch_twice. rewrite H1, H2.
  destruct (try_fetch (reply env2)); done.
Qed.

Lemma hit_does_not_extend_ttl_witness :
  let w := stored (KStr "A") 0 scenario_records empty_world in
  let env1 := fetch_at 299 (Reply 200 (Some [])) in
  let env2 := fetch_at 300 (Reply 200 (Some [])) in
  get_transactions 300 env1 (JStr "A") w = (Return scenario_records, w) /\
  fst (fst (fetch_twice 300 env1 env2 (JStr "A") w)) =
    Return scenario_records /\
  upstream_calls (snd (fetch_twice 300 env1 env2 (JStr "A") w)) =
    [JStr "A"].
Proof.
  apply (hit_does_not_extend_ttl 300 (fetch_at 299 (Reply 200 (Some [])))
           (fetch_at 300 (Reply 200 (Some []))) (JStr "A") (KStr "A")
           {| entry_timestamp := 0; entry_data := scenario_records |}
           (stored (KStr "A") 0 scenario_records empty_world)).
  - reflexivity.
  - reflexivity.
  - reflexivity.
  - vm_compute. discriminate.
Defined.

(** X4: with CACHE_TTL <= 0 the cache never answers: every fetch for a
    hashable address whose entry, if any, is not stamped in the future
    issues a GET. *)
Theorem nonpositive_ttl_disables_cache ttl env address k w :
  (ttl <= 0)%Z ->
  hashable address = Some k ->
  (forall e, CACHE w !! k = Some e ->
     (entry_timestamp e <= now_check env)%Q) ->
  upstream_calls (snd (get_transactions ttl env address w)) =
    address :: upstream_calls w.
Proof.
  intros Httl Hk Hpast.
  assert (cache_get ttl (now_check env) k (CACHE w) = None) as Hmiss.
  { destruct (CACHE w !! k) as [e|] eqn:He.
    - apply (cache_get_stale _ _ _ _ e He).
      specialize (Hpast e eq_refl).
      rewrite Zle_Qle in Httl. change (inject_Z 0) with 0%Q in Httl. lra.
    - unfold cache_get. by rewrite He. }
  rewrite (get_transactions_miss _ _ _ _ _ Hk Hmiss).
  by destruct (try_fetch _).
Qed.

Lemma nonpositive_ttl_disables_cache_witness :
  upstream_calls
    (snd (get_transactions 0 (fetch_at 5 (Reply 200 (Some [])))
            (JStr "A") (stored (KStr "A") 5 scenario_records empty_world)))
  = [JStr "A"].
Proof.
  apply (nonpositive_ttl_disables_cache 0 (fetch_at 5 (Reply 200 (Some [])))
           (JStr "A") (KStr "A")
           (stored (KStr "A") 5 scenario_records empty_world)).
  - lia.
  - reflexivity.
  - intros e [= <-]. vm_compute. discriminate.
Defined.

(** ** Further properties of /score *)

Lemma score_fetched ttl env body w v k data :
  body !! "address" = Some v -> truthy v = true ->
  hashable v = Some k ->
  cache_get ttl (now_check (fetch env)) k (CACHE w) = None ->
  try_fetch (reply (fetch env)) = Return data ->
  score ttl env body w =
  let w1 := stored k (now_store (fetch env)) data (logged v w) in
  match data with
  | [] =>
      (Return (ErrorBody "Failed to fetch transaction data from Helius."), w1)
  | _ =>
      let f := extract_features_from_helius (now_extract env) data v in
      (Return (ScoreBody (round2 (risk_score (incoming_ratio f)))
                 (risk_label (risk_score (incoming_ratio f))) f), w1)
  end.
Proof.
  intros Hb Ht Hk Hc Hf. rewrite (score_present _ _ _ _ _ Hb Ht).
  rewrite (get_transactions_miss _ _ _ _ _ Hk Hc), Hf. by destruct data.
Qed.

Lemma score_cached ttl env body w v k data :
  body !! "address" = Some v -> truthy v = true ->
  hashable v = Some k ->
  cache_get ttl (now_check (fetch env)) k (CACHE w) = Some data ->
  score ttl env body w =
  match data with
  | [] =>
      (Return (ErrorBody "Failed to fetch transaction data from Helius."), w)
  | _ =>
      let f := extract_features_from_helius (now_extract env) data v in
      (Return (ScoreBody (round2 (risk_score (incoming_ratio f)))
                 (risk_label (risk_score (incoming_ratio f))) f), w)
  end.
Proof.
  intros Hb Ht Hk Hc. rewrite (score_present _ _ _ _ _ Hb Ht).
  rewrite (get_transactions_hit _ _ _ _ _ _ Hk Hc). by destruct data.
Qed.

Lemma cache_get_stored ttl now k t data w :
  (now - t < inject_Z ttl)%Q ->
  cache_get ttl now k (CACHE (stored k t data w)) = Some data.
Proof.
  intros Hlt.
  apply (cache_get_fresh _ _ _ _ {| entry_timestamp := t; entry_data := data |});
    [apply lookup_insert_eq | done].
Qed.

(** X5: a successful reply with an empty array is cached like any other,
    so until it expires /score keeps answering with the fetch-failure error
    for that address without asking upstream again, whatever upstream would
    now reply. *)
Theorem empty_success_blocks_refetch ttl env1 env2 body address k w status :
  body !! "address" = Some address -> truthy address = true ->
  hashable address = Some k ->
  cache_get ttl (now_check (fetch env1)) k (CACHE w) = None ->
  reply (fetch env1) = Reply status (Some []) ->
  (200 <= status < 300)%nat ->
  (now_check (fetch env2) - now_store (fetch env1) < inject_Z ttl)%Q ->
  let w1 := snd (score ttl env1 body w) in
  fst (score ttl env1 body w) =
    Return (ErrorBody "Failed to fetch transaction data from Helius.") /\
  upstream_calls w1 = address :: upstream_calls w /\
  score ttl env2 body w1 =
    (Return (ErrorBody "Failed to fetch transaction data from Helius."), w1).
Proof.
  intros Hb Ht Hk Hc Hr Hs Hnear. cbv zeta.
  assert (try_fetch (reply (fetch env1)) = Return []) as Hf
    by (apply try_fetch_Return; eauto).
  rewrite (score_fetched _ _ _ _ _ _ _ Hb Ht Hk Hc Hf). cbn [fst snd].
  repeat split.
  by rewrite (score_cached _ env2 _ _ _ _ [] Hb Ht Hk
                (cache_get_stored _ _ _ _ _ _ Hnear)).
Qed.

Lemma empty_success_blocks_refetch_witness :
  let body : gmap string json := {[ "address" := JStr "A" ]} in
  let env1 := score_at 0 (Reply 200 (Some [])) in
  let env2 := score_at 299 (Reply 200 (Some scenario_records)) in
  let w1 := snd (score 300 env1 body empty_world) in
  fst (score 300 env1 body empty_world) =
    Return (ErrorBody "Failed to fetch transaction data from Helius.") /\
  upstream_calls w1 = [JStr "A"] /\
  score 300 env2 body w1 =
    (Return (ErrorBody "Failed to fetch transaction data from Helius."), w1).
Proof.
  apply (empty_success_blocks_refetch 300 (score_at 0 (Reply 200 (Some [])))
           (score_at 299 (Reply 200 (Some scenario_records)))
           {[ "address" := JStr "A" ]} (JStr "A") (KStr "A") empty_world
           200%nat); try reflexivity.
  lia.
Defined.

(** X6: after a /score that fetched a non-empty history, a second /score
    for the same body before the entry expires issues no GET and returns
    the same score, label, counts and ratio, whatever upstream would now
    reply; only recent_activity_days follows the clock. *)
Theorem score_repeat_within_ttl ttl env1 env2 body address k w data :
  body !! "address" = Some address -> truthy address = true ->
  hashable address = Some k ->
  cache_get ttl (now_check (fetch env1)) k (CACHE w) = None ->
  try_fetch (reply (fetch env1)) = Return data -> data <> [] ->
  (now_check (fetch env2) - now_store (fetch env1) < inject_Z ttl)%Q ->
  exists s l f1 f2 w1,
    score ttl env1 body w = (Return (ScoreBody s l f1), w1) /\
    score ttl env2 body w1 = (Return (ScoreBody s l f2), w1) /\
    upstream_calls w1 = address :: upstream_calls w /\
    tx_count f1 = tx_count f2 /\
    incoming_tx_count f1 = incoming_tx_count f2 /\
    outgoing_tx_count f1 = outgoing_tx_count f2 /\
    incoming_ratio f1 = incoming_ratio f2 /\
    f2 = extract_features_from_helius (now_extract env2) data address.
Proof.
  intros Hb Ht Hk Hc Hf Hne Hnear.
  destruct data as [|tx data]; [done|].
  exists (round2 (risk_score (incoming_ratio
            (extract_features_from_helius (now_extract env1) (tx :: data)
               address)))),
         (risk_label (risk_score (incoming_ratio
            (extract_features_from_helius (now_extract env1) (tx :: data)
               address)))),
         (extract_features_from_helius (now_extract env1) (tx :: data) address),
         (extract_features_from_helius (now_extract env2) (tx :: data) address),
         (stored k (now_store (fetch env1)) (tx :: data) (logged address w)).
  split; [by rewrite (score_fetched _ _ _ _ _ _ _ Hb Ht Hk Hc Hf)|].
  split.
  - rewrite (score_cached _ env2 _ _ _ _ (tx :: data) Hb Ht Hk
               (cache_get_stored _ _ _ _ _ _ Hnear)).
    cbv zeta. by rewrite !extract_ratio.
  - repeat split.
Qed.

Lemma score_repeat_within_ttl_witness :
  exists s l f1 f2 w1,
    score 300 (score_at 0 (Reply 200 (Some scenario_records)))
      {[ "address" := JStr "A" ]} empty_world =
      (Return (ScoreBody s l f1), w1) /\
    score 300 (score_at 299 (TransportError (Exn "ConnectError" "unreachable")))
      {[ "address" := JStr "A" ]} w1 = (Return (ScoreBody s l f2), w1) /\
    upstream_calls w1 = [JStr "A"] /\
    tx_count f1 = tx_count f2 /\
    incoming_tx_count f1 = incoming_tx_count f2 /\
    outgoing_tx_count f1 = outgoing_tx_count f2 /\
    incoming_ratio f1 = incoming_ratio f2 /\
    f2 = extract_features_from_helius 299 scenario_records (JStr "A").
Proof.
  apply (score_repeat_within_ttl 300
           (score_at 0 (Reply 200 (Some scenario_records)))
           (score_at 299 (TransportError (Exn "ConnectError" "unreachable")))
           {[ "address" := JStr "A" ]} (JStr "A") (KStr "A") empty_world
           scenario_records); try reflexivity.
  discriminate.
Defined.

(** ** Further properties of the extractor *)

Lemma filter_length_perm {A} (p : A -> bool) (l l' : list A) :
  Permutation l l' ->
  length (List.filter p l) = length (List.filter p l').
Proof.
  induction 1 as [|x l l' _ IH|x y l|l l' l'' _ IH1 _ IH2]; simpl.
  - reflexivity.
  - destruct (p x); simpl; congruence.
  - destruct (p x), (p y); reflexivity.
  - congruence.
Qed.

Lemma seen_timestamp_perm data data' m :
  Permutation data data' -> seen_timestamp data m -> seen_timestamp data' m.
Proof.
  intros Hp (Hm & tx & Hin & Hts). split; [done|].
  exists tx. split; [|done]. eapply Permutation_in; eauto.
Qed.

Lemma loop_last_perm address data data' :
  Permutation data data' ->
  last_tx_timestamp (fold_left (tx_step address) data counters0) =
  last_tx_timestamp (fold_left (tx_step address) data' counters0).
Proof.
  intros Hp.
  pose proof (extract_last address data) as H.
  pose proof (extract_last address data') as H'.
  destruct (last_tx_timestamp (fold_left _ data _)) as [m|],
           (last_tx_timestamp (fold_left _ data' _)) as [m'|]; [| | |done].
  - destruct H as [Hs Hub], H' as [Hs' Hub']. f_equal.
    apply (seen_timestamp_perm _ _ _ Hp) in Hs as Hs2.
    apply (seen_timestamp_perm _ _ _ (Permutation_sym Hp)) in Hs' as Hs2'.
    specialize (Hub _ Hs2'). specialize (Hub' _ Hs2). lia.
  - destruct H as [Hs _]. apply (seen_timestamp_perm _ _ _ Hp) in Hs.
    by apply H' in Hs.
  - destruct H' as [Hs _].
    apply (seen_timestamp_perm _ _ _ (Permutation_sym Hp)) in Hs.
    by apply H in Hs.
Qed.

(** X7: the FeatureSet does not depend on the order of the records in the
    history. *)
Theorem extract_permutation now data data' address :
  Permutation data data' ->
  extract_features_from_helius now data address =
  extract_features_from_helius now data' address.
Proof.
  intros Hp.
  destruct (tx_loop_counts address data counters0) as (Hi & Ho).
  destruct (tx_loop_counts address data' counters0) as (Hi' & Ho').
  pose proof (Permutation_flat_map transfers_of Hp) as Hflat.
  unfold extract_features_from_helius. cbv zeta.
  rewrite (loop_last_perm address data data' Hp), (Permutation_length Hp).
  rewrite Hi, Ho, Hi', Ho'.
  by rewrite (filter_length_perm (receives address) _ _ Hflat),
             (filter_length_perm (sends_only address) _ _ Hflat).
Qed.

Lemma extract_permutation_witness :
  extract_features_from_helius 0 scenario_records (JStr "A") =
  extract_features_from_helius 0 (rev scenario_records) (JStr "A").
Proof.
  apply (extract_permutation 0 scenario_records (rev scenario_records)
           (JStr "A")).
  apply Permutation_rev.
Defined.

(** X8: the counts of a concatenated history are the sums of the counts of
    its parts. *)
Theorem extract_app now data1 data2 address :
  let f := extract_features_from_helius now (data1 ++ data2) address in
  let f1 := extract_features_from_helius now data1 address in
  let f2 := extract_features_from_helius now data2 address in
  tx_count f = (tx_count f1 + tx_count f2)%nat /\
  incoming_tx_count f = (incoming_tx_count f1 + incoming_tx_count f2)%nat /\
  outgoing_tx_count f = (outgoing_tx_count f1 + outgoing_tx_count f2)%nat.
Proof.
  cbv zeta.
  destruct (extract_counts now (data1 ++ data2) address) as (-> & -> & ->).
  destruct (extract_counts now data1 address) as (-> & -> & ->).
  destruct (extract_counts now data2 address) as (-> & -> & ->).
  unfold count_received, count_sent.
  rewrite flat_map_app, !List.filter_app, !length_app. done.
Qed.

Lemma filter_exclusive_length {A} (p q : A -> bool) (l : list A) :
  (length (List.filter p l) +
   length (List.filter (fun x => negb (p x) && q x) l) <= length l)%nat.
Proof.
  induction l as [|x l IH]; simpl; [lia|].
  destruct (p x); simpl; [lia|]. destruct (q x); simpl; lia.
Qed.

(** X9: every native-transfer entry is counted at most once: incoming plus
    outgoing never exceeds the number of entries in the history. *)
Theorem counts_bounded_by_entries now data address :
  let f := extract_features_from_helius now data address in
  (incoming_tx_count f + outgoing_tx_count f <=
   length (flat_map transfers_of data))%nat.
Proof.
  cbv zeta.
  destruct (extract_counts now data address) as (_ & -> & ->).
  apply filter_exclusive_length.
Qed.

(** ** Further properties of the scorer *)

Lemma Qltb_comp (x x' y y' : Q) :
  (x == x')%Q -> (y == y')%Q -> Qltb x y = Qltb x' y'.
Proof. intros Hx Hy. unfold Qltb. by rewrite Hx, Hy. Qed.

Lemma round_half_even_comp (x y : Q) :
  (x == y)%Q -> round_half_even x = round_half_even y.
Proof.
  intros H. unfold round_half_even. rewrite (Qfloor_comp _ _ H).
  assert (x - inject_Z (Qfloor y) == y - inject_Z (Qfloor y))%Q as Hd
    by (by rewrite H).
  by rewrite (Qltb_comp _ _ _ _ Hd (Qeq_refl (1 # 2))),
             (Qltb_comp _ _ _ _ (Qeq_refl (1 # 2)) Hd).
Qed.

Lemma round2_comp (x y : Q) : (x == y)%Q -> round2 x = round2 y.
Proof.
  intros H. unfold round2. f_equal. apply round_half_even_comp. by rewrite H.
Qed.

Lemma risk_score_cases (r : Q) :
  ((1 # 10) + (8 # 10) * r < 1 /\ risk_score r = (1 # 10) + (8 # 10) * r)%Q \/
  (1 <= (1 # 10) + (8 # 10) * r /\ risk_score r = 1)%Q.
Proof.
  unfold risk_score, py_min.
  destruct (Qltb _ _) eqn:H; [left | right]; split; auto.
  - by apply Qltb_lt.
  - by apply Qltb_ge.
Qed.

Lemma risk_score_comp (r r' : Q) :
  (r == r')%Q -> (risk_score r == risk_score r')%Q.
Proof.
  intros H.
  destruct (risk_score_cases r) as [[H1 ->] | [H1 ->]],
           (risk_score_cases r') as [[H2 ->] | [H2 ->]]; lra.
Qed.

Lemma risk_label_comp (s s' : Q) :
  (s == s')%Q -> risk_label s = risk_label s'.
Proof.
  intros H. unfold risk_label.
  by rewrite (Qltb_comp _ _ _ _ (Qeq_refl (65 # 100)) H),
             (Qltb_comp _ _ _ _ (Qeq_refl (35 # 100)) H).
Qed.

Lemma round_half_even_between (lo hi : Z) (y : Q) :
  (inject_Z lo <= y <= inject_Z hi)%Q ->
  (lo <= round_half_even y <= hi)%Z.
Proof.
  intros [Hlo Hhi].
  pose proof (round_half_even_near y) as H.
  apply Qabs_Qle_condition in H as [H1 H2].
  split.
  - assert (inject_Z (lo - 1) < inject_Z (round_half_even y))%Q as Hlt.
    { unfold Z.sub. rewrite inject_Z_plus, inject_Z_opp.
      change (inject_Z 1) with 1%Q. lra. }
    rewrite <- Zlt_Qlt in Hlt. lia.
  - assert (inject_Z (round_half_even y) < inject_Z (hi + 1))%Q as Hlt.
    { rewrite inject_Z_plus. change (inject_Z 1) with 1%Q. lra. }
    rewrite <- Zlt_Qlt in Hlt. lia.
Qed.

Lemma round_half_even_mono (x y : Q) :
  (x <= y)%Q -> (round_half_even x <= round_half_even y)%Z.
Proof.
  intros Hle.
  pose proof (round_half_even_near x) as Hx.
  pose proof (round_half_even_near y) as Hy.
  apply Qabs_Qle_condition in Hx as [Hx1 Hx2].
  apply Qabs_Qle_condition in Hy as [Hy1 Hy2].
  destruct (Z_le_gt_dec (round_half_even x) (round_half_even y)) as [|Hgt];
    [done|].
  assert (inject_Z (round_half_even y + 1) <= inject_Z (round_half_even x))%Q
    as Hz by (rewrite <- Zle_Qle; lia).
  rewrite inject_Z_plus in Hz. change (inject_Z 1) with 1%Q in Hz.
  assert (x == y)%Q as Heq by lra.
  rewrite (round_half_even_comp _ _ Heq) in Hgt. lia.
Qed.

Lemma round2_mono (x y : Q) : (x <= y)%Q -> (round2 x <= round2 y)%Q.
Proof.
  intros H. unfold round2, Qle. simpl.
  apply Z.mul_le_mono_nonneg_r; [lia|].
  apply round_half_even_mono. lra.
Qed.

(** The label as a function of the two counts. *)
Lemma risk_label_ratio (a b : Q) :
  (0 < b)%Q ->
  let l := risk_label (risk_score (a / b)) in
  (l = "high" <-> (11 * b < 16 * a)%Q) /\
  (l = "medium" <-> (5 * b < 16 * a)%Q /\ (16 * a <= 11 * b)%Q) /\
  (l = "low" <-> (16 * a <= 5 * b)%Q).
Proof.
  intros Hb. cbv zeta.
  assert (b * (a / b) == a)%Q as Hr by (apply Qmult_div_r; lra).
  set (r := (a / b)%Q) in *.
  destruct (risk_label_cases (risk_score r)) as (Hh & Hm & Hl).
  rewrite Hh, Hm, Hl.
  destruct (risk_score_cases r) as [[H1 ->] | [H1 ->]];
    repeat split; intros;
    repeat match goal with H : _ /\ _ |- _ => destruct H end; nra.
Qed.

Lemma risk_score_range (r : Q) :
  (0 <= r)%Q -> (1 # 10 <= risk_score r <= 1)%Q.
Proof.
  intros Hr. destruct (risk_score_cases r) as [[H ->] | [H ->]]; lra.
Qed.

Lemma risk_score_mono (r1 r2 : Q) :
  (r1 <= r2)%Q -> (risk_score r1 <= risk_score r2)%Q.
Proof.
  intros H.
  destruct (risk_score_cases r1) as [[H1 ->] | [H1 ->]],
           (risk_score_cases r2) as [[H2 ->] | [H2 ->]]; lra.
Qed.

Lemma round2_range (x : Q) :
  (1 # 10 <= x <= 1)%Q -> (1 # 10 <= round2 x <= 1)%Q.
Proof.
  intros [Hlo Hhi].
  destruct (round_half_even_between 10 100 (x * 100)) as [H1 H2].
  { change (inject_Z 10) with 10%Q. change (inject_Z 100) with 100%Q. lra. }
  unfold round2, Qle. simpl. lia.
Qed.

(** What a score response says about the run that produced it. *)
Lemma score_ScoreBody_inv ttl env body w s l f w' :
  score ttl env body w = (Return (ScoreBody s l f), w') ->
  exists v data,
    body !! "address" = Some v /\ truthy v = true /\ data <> [] /\
    get_transactions ttl (fetch env) v w = (Return data, w') /\
    f = extract_features_from_helius (now_extract env) data v.
Proof.
  unfold score. destruct (body !! "address") as [v|]; [|discriminate].
  simpl. destruct (truthy v) eqn:Ht; [|discriminate]. simpl.
  destruct (get_transactions _ _ _ _) as [[data|e] w1] eqn:Hg; [|discriminate].
  destruct data as [|tx data]; [discriminate|].
  intros [= <- <- <- <-]. exists v, (tx :: data). by repeat split.
Qed.

Lemma nat_ratio_lt (c d : Z) (i n : nat) :
  (inject_Z c * inject_Z (Z.of_nat n) < inject_Z d * inject_Z (Z.of_nat i))%Q
  <-> (c * Z.of_nat n < d * Z.of_nat i)%Z.
Proof. by rewrite <- !inject_Z_mult, <- Zlt_Qlt. Qed.

Lemma nat_ratio_le (c d : Z) (i n : nat) :
  (inject_Z c * inject_Z (Z.of_nat i) <= inject_Z d * inject_Z (Z.of_nat n))%Q
  <-> (c * Z.of_nat i <= d * Z.of_nat n)%Z.
Proof. by rewrite <- !inject_Z_mult, <- Zle_Qle. Qed.

(** X10: whenever /score answers with a score, the history behind it is
    not empty (tx_count >= 1), the ratio is not negative, the score of the
    response lies between 0.1 and 1 and the label is one of "low",
    "medium" and "high". *)
Theorem score_range ttl env body w s l f w' :
  score ttl env body w = (Return (ScoreBody s l f), w') ->
  (1 <= tx_count f)%nat /\
  (0 <= incoming_ratio f)%Q /\
  (1 # 10 <= s <= 1)%Q /\
  (l = "low" \/ l = "medium" \/ l = "high").
Proof.
  intros Hs. destruct (score_response _ _ _ _ _ _ _ _ Hs) as [-> ->].
  apply score_ScoreBody_inv in Hs as (v & data & _ & _ & Hne & _ & ->).
  assert (0 < length data)%nat as Hlen
    by (destruct data; [done | simpl; lia]).
  assert (0 <= incoming_ratio
                 (extract_features_from_helius (now_extract env) data v))%Q
    as Hr.
  { rewrite extract_ratio. apply Nat.ltb_lt in Hlen as Hb. rewrite Hb.
    by apply ratio_nonneg. }
  split; [simpl; lia|]. split; [done|]. split.
  - by apply round2_range, risk_score_range.
  - unfold risk_label. destruct (Qltb _ _); [auto|]. destruct (Qltb _ _); auto.
Qed.

Lemma score_range_witness :
  let out :=
    score 300 (score_at 0 (Reply 200 (Some scenario_records)))
      {[ "address" := JStr "A" ]} empty_world in
  exists s l f w',
    out = (Return (ScoreBody s l f), w') /\
    (1 <= tx_count f)%nat /\ (0 <= incoming_ratio f)%Q /\
    (1 # 10 <= s <= 1)%Q /\ (l = "low" \/ l = "medium" \/ l = "high").
Proof.
  eexists _, _, _, _. split; [vm_compute; reflexivity|].
  eapply (score_range 300 (score_at 0 (Reply 200 (Some scenario_records)))
            {[ "address" := JStr "A" ]} empty_world).
  vm_compute. reflexivity.
Defined.

(** X11: the label of a score response is decided by the two counts of
    its features: "high" iff 16 * incoming > 11 * tx_count, "low" iff
    16 * incoming <= 5 * tx_count, "medium" in between. *)
Theorem label_by_counts ttl env body w s l f w' :
  score ttl env body w = (Return (ScoreBody s l f), w') ->
  (l = "high" <-> (11 * tx_count f < 16 * incoming_tx_count f)%nat) /\
  (l = "medium" <->
     (5 * tx_count f < 16 * incoming_tx_count f)%nat /\
     (16 * incoming_tx_count f <= 11 * tx_count f)%nat) /\
  (l = "low" <-> (16 * incoming_tx_count f <= 5 * tx_count f)%nat).
Proof.
  intros Hs. destruct (score_response _ _ _ _ _ _ _ _ Hs) as [_ ->].
  apply score_ScoreBody_inv in Hs as (v & data & _ & _ & Hne & _ & ->).
  assert (0 < length data)%nat as Hlen
    by (destruct data; [done | simpl; lia]).
  destruct (extract_counts (now_extract env) data v) as (-> & -> & _).
  rewrite extract_ratio. apply Nat.ltb_lt in Hlen as Hb. rewrite Hb.
  assert (0 < inject_Z (Z.of_nat (length data)))%Q as Hpos
    by (change 0%Q with (inject_Z 0); rewrite <- Zlt_Qlt; lia).
  destruct (risk_label_ratio (inject_Z (Z.of_nat (count_received v data)))
              (inject_Z (Z.of_nat (length data))) Hpos) as (Hh & Hm & Hl).
  rewrite Hh, Hm, Hl.
  change 11%Q with (inject_Z 11). change 16%Q with (inject_Z 16).
  change 5%Q with (inject_Z 5).
  rewrite !nat_ratio_lt, !nat_ratio_le. repeat split; intros; lia.
Qed.

Lemma label_by_counts_witness :
  ("medium" = "medium" <->
     (5 * 2 < 16 * 1)%nat /\ (16 * 1 <= 11 * 2)%nat).
Proof.
  apply (label_by_counts 300 (score_at 0 (Reply 200 (Some scenario_records)))
           {[ "address" := JStr "A" ]} empty_world
           (round2 (risk_score (incoming_ratio
              (extract_features_from_helius 0 scenario_records (JStr "A")))))
           "medium"
           (extract_features_from_helius 0 scenario_records (JStr "A"))
           (snd (score 300 (score_at 0 (Reply 200 (Some scenario_records)))
                   {[ "address" := JStr "A" ]} empty_world))).
  vm_compute. reflexivity.
Defined.

(** X12: an address that receives nothing in a non-empty history, however
    much it sends, gets the score 0.10 and the label "low". *)
Theorem no_incoming_scores_low ttl env body w s l f w' :
  score ttl env body w = (Return (ScoreBody s l f), w') ->
  incoming_tx_count f = 0%nat ->
  s = 10 # 100 /\ l = "low".
Proof.
  intros Hs Hzero.
  destruct (score_response _ _ _ _ _ _ _ _ Hs) as [-> ->].
  apply score_ScoreBody_inv in Hs as (v & data & _ & _ & Hne & _ & ->).
  assert (0 < length data)%nat as Hlen
    by (destruct data; [done | simpl; lia]).
  destruct (extract_counts (now_extract env) data v) as (_ & Hi & _).
  rewrite Hi in Hzero.
  assert (incoming_ratio
            (extract_features_from_helius (now_extract env) data v) == 0)%Q
    as Hr.
  { rewrite extract_ratio, Hzero. apply Nat.ltb_lt in Hlen as ->.
    unfold Qdiv. apply Qmult_0_l. }
  pose proof (risk_score_comp _ _ Hr) as Hsc.
  rewrite (round2_comp _ _ Hsc), (risk_label_comp _ _ Hsc). done.
Qed.

Lemma no_incoming_scores_low_witness :
  round2 (risk_score (incoming_ratio
    (extract_features_from_helius 0 (rev scenario_records) (JStr "X"))))
  = 10 # 100 /\
  risk_label (risk_score (incoming_ratio
    (extract_features_from_helius 0 (rev scenario_records) (JStr "X"))))
  = "low".
Proof.
  apply (no_incoming_scores_low 300
           (score_at 0 (Reply 200 (Some (rev scenario_records))))
           {[ "address" := JStr "X" ]} empty_world _ _
           (extract_features_from_helius 0 (rev scenario_records) (JStr "X"))
           (snd (score 300
                   (score_at 0 (Reply 200 (Some (rev scenario_records))))
                   {[ "address" := JStr "X" ]} empty_world))).
  - vm_compute. reflexivity.
  - reflexivity.
Defined.

(** X13: a larger incoming ratio never gives a smaller score, rounded or
    not, and never a lower label. *)
Theorem risk_monotone (r1 r2 : Q) :
  (r1 <= r2)%Q ->
  (risk_score r1 <= risk_score r2)%Q /\
  (round2 (risk_score r1) <= round2 (risk_score r2))%Q /\
  (risk_label (risk_score r1) = "high" ->
   risk_label (risk_score r2) = "high") /\
  (risk_label (risk_score r2) = "low" ->
   risk_label (risk_score r1) = "low").
Proof.
  intros H. pose proof (risk_score_mono _ _ H) as Hs.
  destruct (risk_label_cases (risk_score r1)) as (Hh1 & _ & Hl1).
  destruct (risk_label_cases (risk_score r2)) as (Hh2 & _ & Hl2).
  split; [done|]. split; [by apply round2_mono|]. split.
  - rewrite Hh1, Hh2. lra.
  - rewrite Hl1, Hl2. lra.
Qed.

Lemma risk_monotone_witness :
  (risk_score (1 # 4) <= risk_score (3 # 4))%Q /\
  (round2 (risk_score (1 # 4)) <= round2 (risk_score (3 # 4)))%Q /\
  (risk_label (risk_score (1 # 4)) = "high" ->
   risk_label (risk_score (3 # 4)) = "high") /\
  (risk_label (risk_score (3 # 4)) = "low" ->
   risk_label (risk_score (1 # 4)) = "low").
Proof.
  apply (risk_monotone (1 # 4) (3 # 4)). vm_compute. discriminate.
Defined.

(** ** Further properties of /simulate *)

(** X14: /simulate answers with an error exactly when the tx field is
    missing or falsy, the decoder raises or the RPC call raises; otherwise
    it relays the logs, the consumed units and the execution error of the
    simulation, or an empty log and two nulls when the RPC returned no
    value. An execution error reported by the simulator is relayed in
    [err], not as an error response. *)
Theorem simulate_outcomes senv body :
  ((exists msg, simulate senv body = Return (ErrorBody msg)) <->
   falsy_opt (body !! "tx") = true \/
   exists v, body !! "tx" = Some v /\
     ((exists e, b64decode senv v = Raise e) \/
      (exists bytes e, b64decode senv v = Return bytes /\
                       simulate_transaction senv bytes = Raise e))) /\
  (forall v bytes value,
     body !! "tx" = Some v -> truthy v = true ->
     b64decode senv v = Return bytes ->
     simulate_transaction senv bytes = Return value ->
     simulate senv body =
       Return (match value with
               | Some r => SimulateBody (logs r) (units_consumed r) (err r)
               | None => SimulateBody [] None None
               end)).
Proof.
  split.
  - unfold simulate. destruct (body !! "tx") as [v|] eqn:Hb; simpl;
      [|split; eauto].
    destruct (truthy v) eqn:Ht; simpl; [|split; eauto].
    destruct (b64decode senv v) as [bytes|e] eqn:Hd.
    + destruct (simulate_transaction senv bytes) as [value|e] eqn:Hr.
      * split; [intros [msg [=]]|].
        intros [[=] | (v' & [= <-] & [[e He] | (b' & e & Hb' & He)])];
          congruence.
      * split; [|eauto]. intros _. right. exists v. split; [done|].
        right. eauto.
    + split; [|eauto]. intros _. right. exists v. split; [done|].
      left. eauto.
  - intros v bytes value Hb Ht Hd Hr. unfold simulate.
    rewrite Hb. simpl. rewrite Ht. simpl. rewrite Hd, Hr.
    by destruct value.
Qed.

(** ** Sequences of requests *)

Lemma score_world_cases ttl env body w :
  snd (score ttl env body w) = w \/
  exists v, body !! "address" = Some v /\ truthy v = true /\
            snd (score ttl env body w) =
            snd (get_transactions ttl (fetch env) v w).
Proof.
  destruct (falsy_opt (body !! "address")) eqn:Hf.
  - left. by rewrite (score_missing _ _ _ _ Hf).
  - right. destruct (body !! "address") as [v|] eqn:Hb; [|discriminate].
    apply negb_false_iff in Hf. exists v. repeat split; [done|].
    by apply score_world.
Qed.

Lemma get_transactions_backed ttl env v w :
  truthy v = true -> cache_backed w ->
  cache_backed (snd (get_transactions ttl env v w)).
Proof.
  intros Ht Hw. unfold get_transactions.
  destruct (hashable v) as [k0|] eqn:Hk; [|done].
  destruct (cache_get _ _ _ _); [done|].
  destruct (try_fetch _) as [data|exc]; simpl.
  - intros k Hsome. simpl in *.
    destruct (decide (k0 = k)) as [<-|Hne].
    + exists v. split; [by left|]. by split.
    + rewrite lookup_insert_ne in Hsome by done.
      destruct (Hw k Hsome) as (a & Hin & Ha & Hta).
      exists a. split; [by right|]. by split.
  - intros k Hsome. simpl in *.
    destruct (Hw k Hsome) as (a & Hin & Ha & Hta).
    exists a. split; [by right|]. by split.
Qed.

Lemma serve_backed ttl r w :
  cache_backed w -> cache_backed (snd (serve ttl r w)).
Proof.
  intros Hw. destruct r as [|env body|env body]; simpl; [done| |done].
  destruct (score_world_cases ttl env body w) as [-> | (v & _ & Ht & ->)];
    [done|]. by apply get_transactions_backed.
Qed.

Lemma falsy_key_unbacked v k :
  hashable v = Some k -> truthy v = true ->
  k <> KNone /\ k <> KStr "" /\ k <> KNum 0 1.
Proof.
  destruct v as [|b|q|s| |]; simpl; try discriminate; intros [= <-] Ht.
  - destruct b; [|discriminate]. repeat split; discriminate.
  - repeat split; try discriminate. intros [= Hn Hd].
    apply negb_true_iff in Ht. rewrite <- not_true_iff_false in Ht.
    apply Ht, Qeq_bool_iff. rewrite <- (Qred_correct q).
    destruct (Qred q) as [n d]. simpl in *. by subst.
  - repeat split; try discriminate. intros [= ->]. discriminate.
Qed.

(** X15: starting from an empty cache, whatever requests are served, every
    cache entry sits under the key of a truthy address for which a GET was
    issued; in particular no entry is ever stored under None, the empty
    string or zero. *)
Theorem run_cache_backed ttl rs w :
  cache_backed w ->
  cache_backed (run ttl rs w) /\
  CACHE (run ttl rs w) !! KNone = None /\
  CACHE (run ttl rs w) !! KStr "" = None /\
  CACHE (run ttl rs w) !! KNum 0 1 = None.
Proof.
  intros Hw.
  assert (cache_backed (run ttl rs w)) as H.
  { revert w Hw. induction rs as [|r rs IH]; intros w Hw; simpl; [done|].
    by apply IH, serve_backed. }
  split; [done|].
  repeat split; apply eq_None_not_Some; intros Hsome;
    destruct (H _ Hsome) as (a & _ & Ha & Hta);
    destruct (falsy_key_unbacked _ _ Ha Hta) as (? & ? & ?); done.
Qed.

Lemma run_cache_backed_witness :
  let w :=
    run 300 [PostScore (score_at 0 (Reply 200 (Some scenario_records)))
               {[ "address" := JStr "A" ]};
             PostScore (score_at 1 (Reply 200 (Some scenario_records)))
               {[ "address" := JStr "" ]}] empty_world in
  cache_backed w /\
  CACHE w !! KNone = None /\ CACHE w !! KStr "" = None /\
  CACHE w !! KNum 0 1 = None.
Proof.
  apply (run_cache_backed 300
           [PostScore (score_at 0 (Reply 200 (Some scenario_records)))
              {[ "address" := JStr "A" ]};
            PostScore (score_at 1 (Reply 200 (Some scenario_records)))
              {[ "address" := JStr "" ]}] empty_world).
  intros k [e He]. change (CACHE empty_world) with (∅ : gmap pykey CacheEntry) in He.
  rewrite lookup_empty in He. discriminate.
Defined.

Lemma serve_grows ttl r w :
  (exists l, upstream_calls (snd (serve ttl r w)) = (l ++ upstream_calls w)%list) /\
  (forall k, is_Some (CACHE w !! k) ->
             is_Some (CACHE (snd (serve ttl r w)) !! k)).
Proof.
  destruct r as [|env body|env body]; simpl;
    try (split; [by exists [] | done]).
  destruct (score_world_cases ttl env body w) as [-> | (v & _ & _ & ->)];
    [split; [by exists [] | done]|].
  destruct (get_transactions_effect ttl (fetch env) v w) as ([H|H] & Hk);
    split; auto; rewrite H; [by exists [] | by exists [v]].
Qed.

(** X16: the service never evicts and never forgets: over any sequence of
    requests the cache keeps every key it had and the log of upstream GETs
    only grows at its head; health checks and simulations leave the world
    as it was. *)
Theorem run_grows ttl rs w :
  (exists l, upstream_calls (run ttl rs w) = (l ++ upstream_calls w)%list) /\
  (forall k, is_Some (CACHE w !! k) -> is_Some (CACHE (run ttl rs w) !! k)) /\
  (Forall (fun r => match r with PostScore _ _ => False | _ => True end) rs ->
   run ttl rs w = w).
Proof.
  revert w. induction rs as [|r rs IH]; intros w; simpl.
  - split; [by exists [] | done].
  - destruct (IH (snd (serve ttl r w))) as ([l Hl] & Hk & Hid).
    destruct (serve_grows ttl r w) as ([l' Hl'] & Hk').
    repeat split.
    + exists (l ++ l')%list. by rewrite Hl, Hl', app_assoc.
    + auto.
    + intros Hall. apply Forall_cons in Hall as [Hr Hall].
      rewrite (Hid Hall). by destruct r.
Qed.
